(** * Avocado Analytics (app.py): the dataset loader and the chart callback

    The program is a Dash page over a pandas table.  Two pieces carry logic:
    the module-level loader (lines 5-11: read the CSV, parse the dates, sort
    by date, derive the two dropdown vocabularies) and the callback
    [update_charts] (lines 129-227: two queries, two group-by aggregations,
    one descending sort cut to ten rows).

    The embedding keeps the shape of the pandas calls:
    - a table is a list of rows; the callback's tables live in a heap of
      frames addressed by references, because line 134 assigns a column to a
      frame and the module-level [data] must be told apart from its copies;
    - [query] evaluates its expression column-wise into a boolean mask and
      selects with it;
    - [groupby] collects the groups in ascending key order (sort=True);
    - [sort_values] goes through an argsort, as pandas' nargsort does, and
      the sorting routine behind it is a parameter ([SortKind]): pandas
      documents its default kind, quicksort, as not stable.

    Numbers: a value of the columns AveragePrice and Total Volume is a
    finite number, kept as the rational it denotes (every finite float64 and
    every int64 is one), and values compare as rationals do.  What the
    reducers "sum" and "mean" make of a list of such values depends on the
    dtype of the column (float64 additions round, an int64 sum wraps
    around), so the two reducers are parameters ([Reducers]) and nothing is
    assumed of them.  Outside the model: NaN and the infinities, a row whose
    date is missing (NaT), and the rounding of the charts' text labels. *)

From Stdlib Require Import ZArith QArith String Ascii Bool Lia.
From Stdlib Require Import OrderedTypeEx.
From stdpp Require Import base gmap list strings sorting.

Local Open Scope string_scope.
Local Open Scope Z_scope.
Local Open Scope nat_scope.
Local Open Scope list_scope.
Local Open Scope stdpp_scope.

(** ** Data model *)

(** A value of the datetime64 column: a calendar date at midnight.  The
    order of timestamps is the lexicographic order of (year, month, day). *)
Record Timestamp := mkTimestamp { ts_year : Z; ts_month : Z; ts_day : Z }.

Definition ts_compare (a b : Timestamp) : comparison :=
  match (ts_year a ?= ts_year b)%Z with
  | Eq => match (ts_month a ?= ts_month b)%Z with
          | Eq => (ts_day a ?= ts_day b)%Z
          | c => c
          end
  | c => c
  end.

Definition ts_leb (a b : Timestamp) : bool :=
  match ts_compare a b with Gt => false | _ => true end.

(** A line of avocado.csv as read_csv yields it: the date is still text.
    Only the five columns the program reads are kept. *)
Record CsvRow := mkCsvRow {
  csv_Date : string;
  csv_AveragePrice : Q;
  csv_Total_Volume : Q;
  csv_type : string;
  csv_region : string
}.

(** A row of [data], after to_datetime; its date is present. *)
Record Row := mkRow {
  Date : Timestamp;
  AveragePrice : Q;
  Total_Volume : Q;
  type : string;
  region : string
}.

(** A frame with the schema of [data], and the column "Year" that line 134
    adds to one of them. *)
Record DataFrame := mkFrame { rows : list Row; Year : option (list Z) }.

(** Rows of the aggregated frames. *)
Record YearlyRow := mkYearly {
  yr_Year : Z;
  yr_AveragePrice : Q;
  yr_Total_Volume : Q
}.

Record RegionRow := mkRegion { rg_region : string; rg_Total_Volume : Q }.

(** The four inputs of the callback. *)
Record FilterSelection := mkSelection {
  sel_region : string;
  sel_type : string;
  start_date : Timestamp;
  end_date : Timestamp
}.

(** The data of one chart: the "x" and "y" series of its single trace. *)
Record Figure (X Y : Type) := mkFigure { fig_x : list X; fig_y : list Y }.
Arguments mkFigure {X Y} _ _.
Arguments fig_x {X Y} _.
Arguments fig_y {X Y} _.

Record Charts := mkCharts {
  price_chart_figure : Figure Z Q;
  volume_chart_figure : Figure Z Q;
  top_region_chart_figure : Figure Q string
}.

(** ** pandas primitives on lists *)

(** Boolean indexing, [df.loc[mask]]. *)
Fixpoint loc {A : Type} (mask : list bool) (l : list A) : list A :=
  match mask, l with
  | b :: mask', x :: l' => if b then x :: loc mask' l' else loc mask' l'
  | _, _ => []
  end.

(** Positional selection, [df.take(indexer)]. *)
Definition iloc {A : Type} (indexer : list nat) (l : list A) : list A :=
  omap (fun i => l !! i) indexer.

(** [Series.unique]: the distinct values in order of first appearance; the
    set [seen] plays the hash table. *)
Fixpoint unique_from (seen : gset string) (l : list string) : list string :=
  match l with
  | [] => []
  | x :: l' =>
      if decide (x ∈ seen) then unique_from seen l'
      else x :: unique_from ({[x]} ∪ seen) l'
  end.

Definition unique (l : list string) : list string := unique_from ∅ l.

(** The reducers "sum" and "mean" of [agg]: what pandas computes from the
    values of one group, taken in the order of the rows.  The answer depends
    on the dtype of the column: on float64 every addition rounds, on int64
    the sum wraps around.  The development takes the two reducers as they
    are, functions of the group's values, and assumes nothing else. *)
Class Reducers := {
  sum : list Q -> Q;
  mean : list Q -> Q
}.

(** The reducers of exact arithmetic, for the examples. *)
Definition exact_sum (l : list Q) : Q := fold_left Qplus l 0%Q.

Definition exact_mean (l : list Q) : Q :=
  (exact_sum l / inject_Z (Z.of_nat (length l)))%Q.

Definition exact_reducers : Reducers :=
  {| sum := exact_sum; mean := exact_mean |}.

(** [groupby(key)] with the default sort=True: one group per distinct key,
    keys ascending, the members of a group in their original order. *)
Section GroupBy.
Context {K A : Type} (cmp : K -> K -> comparison) (key : A -> K).

Fixpoint group_insert (a : A) (groups : list (K * list A)) : list (K * list A) :=
  match groups with
  | [] => [(key a, [a])]
  | (k, g) :: rest =>
      match cmp (key a) k with
      | Lt => (key a, [a]) :: groups
      | Eq => (k, g ++ [a]) :: rest
      | Gt => (k, g) :: group_insert a rest
      end
  end.

Definition groupby (l : list A) : list (K * list A) :=
  fold_left (fun groups a => group_insert a groups) l [].

End GroupBy.

(** ** Sorting *)

Definition ble {K : Type} (leb : K -> K -> bool) : relation K :=
  fun x y => leb x y = true.

#[export] Instance ble_dec {K : Type} (leb : K -> K -> bool) (x y : K)
    : Decision (ble leb x y) := decide (leb x y = true).

(** What [sort_values(kind=...)] may rely on: numpy's argsort returns a
    permutation of the positions that puts the keys in ascending order.
    Nothing is promised about keys that compare equal. *)
Class SortKind := {
  argsort : forall {K : Type}, (K -> K -> bool) -> list K -> list nat;
  argsort_Permutation :
    forall {K : Type} (leb : K -> K -> bool) (keys : list K),
      argsort leb keys ≡ₚ seq 0 (length keys);
  argsort_sorted :
    forall {K : Type} (leb : K -> K -> bool),
      Transitive (ble leb) -> Total (ble leb) ->
      forall keys : list K,
        StronglySorted (ble leb) (iloc (argsort leb keys) keys)
}.

(** pandas.core.sorting.nargsort without missing values: a descending sort
    reverses the keys, sorts ascending and reverses the answer. *)
Definition nargsort `{SortKind} {K : Type} (leb : K -> K -> bool)
    (ascending : bool) (keys : list K) : list nat :=
  if ascending then argsort leb keys
  else reverse ((fun j => length keys - 1 - j) <$> argsort leb (reverse keys)).

Definition sort_values `{SortKind} {A K : Type} (by_ : A -> K)
    (leb : K -> K -> bool) (ascending : bool) (l : list A) : list A :=
  iloc (nargsort leb ascending (by_ <$> l)) l.

(** ** The heap of frames and the callback's monad *)

(** Python names objects by reference: [data] is one frame object, and every
    [query] builds a new one.  A computation threads the heap and may raise. *)
Abbreviation heap := (gmap nat DataFrame).

Inductive exn :=
| KeyError (column : string)
| ValueError
| InvalidRef (r : nat).

Inductive outcome (A : Type) :=
| Ok (a : A) (h : heap)
| Raise (e : exn).
Arguments Ok {A} _ _.
Arguments Raise {A} _.

Definition M (A : Type) : Type := heap -> outcome A.

Definition ret {A : Type} (a : A) : M A := fun h => Ok a h.

Definition raise {A : Type} (e : exn) : M A := fun _ => Raise e.

Definition bind {A B : Type} (m : M A) (f : A -> M B) : M B :=
  fun h => match m h with
           | Ok a h' => f a h'
           | Raise e => Raise e
           end.

#[export] Instance M_ret : MRet M := @ret.
#[export] Instance M_bind : MBind M := fun A B f m => bind m f.

(** The value a computation returned, the heap forgotten. *)
Definition value {A : Type} (o : outcome A) : option A :=
  match o with Ok a _ => Some a | Raise _ => None end.

Definition read (r : nat) : M DataFrame :=
  fun h => match h !! r with
           | Some df => Ok df h
           | None => Raise (InvalidRef r)
           end.

(** A new frame object, at a reference no live object has. *)
Definition new_frame (df : DataFrame) : M nat :=
  fun h => let r := fresh (dom h) in Ok r (<[r := df]> h).

(** ** Queries *)

(** The expressions the two query strings use.  [QAnd] is the query
    language's [and], which pandas evaluates as the element-wise [&]. *)
Inductive expr :=
| QEqStr (column : Row -> string) (v : string)
| QDateGe (v : Timestamp)
| QDateLe (v : Timestamp)
| QAnd (e1 e2 : expr).

Fixpoint eval (e : expr) (rs : list Row) : list bool :=
  match e with
  | QEqStr column v => (fun r => String.eqb (column r) v) <$> rs
  | QDateGe v => (fun r => ts_leb v (Date r)) <$> rs
  | QDateLe v => (fun r => ts_leb (Date r) v) <$> rs
  | QAnd e1 e2 => zip_with andb (eval e1 rs) (eval e2 rs)
  end.

(** [df.query(e)]: a new frame holding the selected rows. *)
Definition query (r : nat) (e : expr) : M nat :=
  df ← read r;
  let mask := eval e (rows df) in
  new_frame (mkFrame (loc mask (rows df)) (loc mask <$> Year df)).

(** [df["Date"].dt.year] *)
Definition dt_year (r : nat) : M (list Z) :=
  df ← read r; ret ((fun row => ts_year (Date row)) <$> rows df).

(** [df["Year"] = column]: the frame object itself is updated. *)
Definition setitem_Year (r : nat) (column : list Z) : M unit :=
  fun h => match h !! r with
           | Some df =>
               if Nat.eqb (length column) (length (rows df))
               then Ok tt (<[r := mkFrame (rows df) (Some column)]> h)
               else Raise ValueError
           | None => Raise (InvalidRef r)
           end.

(** [df.groupby("Year", as_index=False)
       .agg({"AveragePrice": "mean", "Total Volume": "sum"})] *)
Definition agg_year `{Reducers} (g : Z * list (Z * Row)) : YearlyRow :=
  mkYearly g.1 (mean ((fun p => AveragePrice p.2) <$> g.2))
               (sum ((fun p => Total_Volume p.2) <$> g.2)).

Definition groupby_Year_agg `{Reducers} (r : nat) : M (list YearlyRow) :=
  df ← read r;
  match Year df with
  | None => raise (KeyError "Year")
  | Some years => ret (agg_year <$> groupby Z.compare fst (zip years (rows df)))
  end.

(** [df.groupby("region", as_index=False)["Total Volume"].sum()] *)
Definition agg_region `{Reducers} (g : string * list Row) : RegionRow :=
  mkRegion g.1 (sum (Total_Volume <$> g.2)).

Definition groupby_region_sum `{Reducers} (r : nat) : M (list RegionRow) :=
  df ← read r;
  ret (agg_region <$> groupby String.compare region (rows df)).

(** [df.head(n)] *)
Definition head {A : Type} (n : nat) (l : list A) : list A := take n l.

(** ** The program *)

(** The query string of line 131:
    "region == @region and type == @avocado_type and Date >= @start_date
     and Date <= @end_date". *)
Definition filtered_query (s : FilterSelection) : expr :=
  QAnd (QAnd (QAnd (QEqStr region (sel_region s)) (QEqStr type (sel_type s)))
             (QDateGe (start_date s)))
       (QDateLe (end_date s)).

(** The query string of line 189:
    "type == @avocado_type and Date >= @start_date and Date <= @end_date". *)
Definition top_query (s : FilterSelection) : expr :=
  QAnd (QAnd (QEqStr type (sel_type s)) (QDateGe (start_date s)))
       (QDateLe (end_date s)).

(** Lines 142-225: the three figures are columns of the two tables. *)
Definition figures (yearly_data : list YearlyRow) (top_regions : list RegionRow)
    : Charts :=
  mkCharts
    (mkFigure (yr_Year <$> yearly_data) (yr_AveragePrice <$> yearly_data))
    (mkFigure (yr_Year <$> yearly_data) (yr_Total_Volume <$> yearly_data))
    (mkFigure (rg_Total_Volume <$> top_regions) (rg_region <$> top_regions)).

Section App.
Context `{SortKind} `{Reducers}.

(** The date parser behind [pd.to_datetime(..., format="%Y-%m-%d")]; [None]
    is the ValueError it raises on text it does not accept.  Every line of
    the source is taken to carry a date. *)
Variable to_datetime : string -> option Timestamp.

Definition assign_Date (c : CsvRow) : option Row :=
  d ← to_datetime (csv_Date c);
  Some (mkRow d (csv_AveragePrice c) (csv_Total_Volume c) (csv_type c) (csv_region c)).

(** Lines 5-9: the first date that does not parse aborts the load. *)
Definition load_data (csv : list CsvRow) : option (list Row) :=
  parsed ← mapM assign_Date csv;
  Some (sort_values Date ts_leb true parsed).

(** Lines 10-11. *)
Definition regions (data : list Row) : list string :=
  unique (sort_values id String.leb true (region <$> data)).

Definition avocado_types (data : list Row) : list string :=
  unique (sort_values id String.leb true (type <$> data)).

(** The loader as the specification presents it. *)
Definition load (csv : list CsvRow)
    : option (list Row * list string * list string) :=
  data ← load_data csv;
  Some (data, avocado_types data, regions data).

(** The reference of the module-level frame. *)
Definition data : nat := 0.

(** The heap once the module is loaded. *)
Definition boot (records : list Row) : heap := {[ data := mkFrame records None ]}.

(** Lines 130-140. *)
Definition yearly_data (s : FilterSelection) : M (list YearlyRow) :=
  filtered_data ← query data (filtered_query s);
  years ← dt_year filtered_data;
  setitem_Year filtered_data years;;
  groupby_Year_agg filtered_data.

(** Lines 188-194. *)
Definition top_regions (s : FilterSelection) : M (list RegionRow) :=
  matching ← query data (top_query s);
  totals ← groupby_region_sum matching;
  ret (head 10 (sort_values rg_Total_Volume Qle_bool false totals)).

(** The callback (lines 129-227); its four inputs, region, avocado_type,
    start_date and end_date, come as one [FilterSelection]. *)
Definition update_charts (s : FilterSelection) : M Charts :=
  yd ← yearly_data s;
  tr ← top_regions s;
  ret (figures yd tr).

(** The pipeline as the specification presents it: the two tables. *)
Definition pipeline (s : FilterSelection) : M (list YearlyRow * list RegionRow) :=
  yd ← yearly_data s;
  tr ← top_regions s;
  ret (yd, tr).

Definition compute (records : list Row) (s : FilterSelection)
    : outcome (list YearlyRow * list RegionRow) :=
  pipeline s (boot records).

End App.

(** ** Two sorting routines *)

(** A stable routine (what kind="stable" asks for): insertion sort of the
    keys paired with their positions; a key goes in front of the first key
    that is not smaller, so equal keys keep their order. *)
Fixpoint insert_key {K : Type} (leb : K -> K -> bool) (p : nat * K)
    (l : list (nat * K)) : list (nat * K) :=
  match l with
  | [] => [p]
  | q :: l' => if leb p.2 q.2 then p :: l else q :: insert_key leb p l'
  end.

Definition stable_argsort {K : Type} (leb : K -> K -> bool) (keys : list K)
    : list nat :=
  (foldr (insert_key leb) [] (imap pair keys)).*1.

(** numpy's argsort for kind="quicksort" (npysort/quicksort.cpp, the generic
    aquicksort): the index array [a] is permuted in place; a range of more
    than 17 positions is split around the median of its first, middle and
    last keys by two converging scans, a shorter one is insertion-sorted.
    This is the routine numpy runs on the datetime64 keys of the loader's
    sort.  For float64 keys numpy may dispatch a vectorised argsort chosen
    by the features of the processor; that routine is not modelled, and the
    ranking is only ever reasoned about through the contract of
    [SortKind]. *)
Section Introsort.
Context {K : Type} (leb : K -> K -> bool) (v : list K).

(** [v[i] < v[j]] *)
Definition key_lt (i j : nat) : bool :=
  match v !! i, v !! j with
  | Some x, Some y => negb (leb y x)
  | _, _ => false
  end.

Definition swap (i j : nat) (a : list nat) : list nat :=
  <[i := a !!! j]> (<[j := a !!! i]> a).

(** [do ++pi; while (v[*pi] < vp)], entered after the first increment; [p]
    is the position whose key is the pivot [vp]. *)
Fixpoint scan_up (fuel : nat) (a : list nat) (p pi : nat) : nat :=
  match fuel with
  | 0 => pi
  | S fuel' => if key_lt (a !!! pi) p then scan_up fuel' a p (S pi) else pi
  end.

(** [do --pj; while (vp < v[*pj])] *)
Fixpoint scan_down (fuel : nat) (a : list nat) (p pj : nat) : nat :=
  match fuel with
  | 0 => pj
  | S fuel' => if key_lt p (a !!! pj) then scan_down fuel' a p (pj - 1) else pj
  end.

(** The [for (;;)] loop of the partition; returns the array and [pi]. *)
Fixpoint converge (fuel : nat) (a : list nat) (p pi pj : nat) : list nat * nat :=
  match fuel with
  | 0 => (a, pi)
  | S fuel' =>
      let pi' := scan_up (length a) a p (S pi) in
      let pj' := scan_down (length a) a p (pj - 1) in
      if pj' <=? pi' then (a, pi')
      else converge fuel' (swap pi' pj' a) p pi' pj'
  end.

(** The inner [while] of the insertion sort: shift the larger keys right. *)
Fixpoint sift (fuel : nat) (a : list nat) (pl pj vi : nat) : list nat :=
  match fuel with
  | 0 => <[pj := vi]> a
  | S fuel' =>
      if (pl <? pj) && key_lt vi (a !!! (pj - 1))
      then sift fuel' (<[pj := a !!! (pj - 1)]> a) pl (pj - 1) vi
      else <[pj := vi]> a
  end.

Definition insertion (a : list nat) (pl pr : nat) : list nat :=
  fold_left (fun a pi => sift pi a pl pi (a !!! pi)) (seq (pl + 1) (pr - pl)) a.

(** One range [pl..pr] with its depth budget.  The larger half is the one
    the C code pushes on its stack; when it is popped with a negative budget
    the C code switches to heapsort, which is not modelled: [None]. *)
Fixpoint aquicksort_range (fuel : nat) (cdepth : Z) (a : list nat)
    (pl pr : nat) : option (list nat) :=
  match fuel with
  | 0 => None
  | S fuel' =>
      if 16 <? pr - pl then
        let pm := pl + (pr - pl) / 2 in
        let a := if key_lt (a !!! pm) (a !!! pl) then swap pm pl a else a in
        let a := if key_lt (a !!! pr) (a !!! pm) then swap pr pm a else a in
        let a := if key_lt (a !!! pm) (a !!! pl) then swap pm pl a else a in
        let p := a !!! pm in
        let a := swap pm (pr - 1) a in
        let '(a, pi) := converge (length a) a p pl (pr - 1) in
        let a := swap pi (pr - 1) a in
        let cdepth := (cdepth - 1)%Z in
        if pi - pl <? pr - pi then
          a ← aquicksort_range fuel' cdepth a pl (pi - 1);
          if (cdepth <? 0)%Z then None
          else aquicksort_range fuel' cdepth a (pi + 1) pr
        else
          a ← aquicksort_range fuel' cdepth a (pi + 1) pr;
          if (cdepth <? 0)%Z then None
          else aquicksort_range fuel' cdepth a pl (pi - 1)
      else Some (insertion a pl pr)
  end.

Definition aquicksort : option (list nat) :=
  let num := length v in
  if num =? 0 then Some []
  else aquicksort_range (S num) (2 * Z.log2 (Z.of_nat num)) (seq 0 num) 0 (num - 1).

(** The contract of [SortKind], checked on one answer. *)
Fixpoint sortedb (l : list K) : bool :=
  match l with
  | x :: (y :: _) as l' => leb x y && sortedb l'
  | _ => true
  end.

Definition is_argsort (indexer : list nat) : bool :=
  (length indexer =? length v)
  && forallb (fun i => bool_decide (i ∈ indexer)) (seq 0 (length v))
  && sortedb (iloc indexer v).

(** The quicksort kind: numpy's answer whenever the model produces one that
    meets the contract, the stable routine's otherwise (the heapsort switch,
    or an order that is not total). *)
Definition quicksort_argsort : list nat :=
  match aquicksort with
  | Some indexer => if is_argsort indexer then indexer else stable_argsort leb v
  | None => stable_argsort leb v
  end.

End Introsort.

(** pandas' kind="quicksort" and kind="stable" are instances of [SortKind]
    once the two routines are shown to meet its contract (see
    [quicksort_kind] and [stable_kind] below). *)

(** ** A date parser for the examples

    It accepts the zero-padded form YYYY-MM-DD of the dataset; pandas'
    parser accepts more (2015-1-4, for one). *)

Definition digit (c : ascii) : option Z :=
  let n := (Z.of_nat (nat_of_ascii c) - 48)%Z in
  if ((0 <=? n) && (n <=? 9))%Z then Some n else None.

Definition is_leap (y : Z) : bool :=
  ((y mod 4 =? 0) && negb (y mod 100 =? 0) || (y mod 400 =? 0))%Z.

Definition days_in_month (y m : Z) : Z :=
  if (m =? 2)%Z then (if is_leap y then 29 else 28)%Z
  else if ((m =? 4) || (m =? 6) || (m =? 9) || (m =? 11))%Z then 30%Z
  else 31%Z.

(** Text of the form YYYY-MM-DD that names a calendar date. *)
Definition strptime_Ymd (text : string) : option Timestamp :=
  match list_ascii_of_string text with
  | [y1; y2; y3; y4; "-"%char; m1; m2; "-"%char; d1; d2] =>
      a ← digit y1; b ← digit y2; c ← digit y3; d ← digit y4;
      e ← digit m1; f ← digit m2; g ← digit d1; h ← digit d2;
      let y := (1000 * a + 100 * b + 10 * c + d)%Z in
      let m := (10 * e + f)%Z in
      let dd := (10 * g + h)%Z in
      if ((1 <=? m) && (m <=? 12) && (1 <=? dd) && (dd <=? days_in_month y m))%Z
      then Some (mkTimestamp y m dd) else None
  | _ => None
  end.

(** ** The specification's vocabulary *)

(** The order of calendar dates. *)
Definition ts_le (a b : Timestamp) : Prop :=
  (ts_year a < ts_year b
   \/ ts_year a = ts_year b
      /\ (ts_month a < ts_month b
          \/ ts_month a = ts_month b /\ ts_day a <= ts_day b))%Z.

#[export] Instance ts_le_dec a b : Decision (ts_le a b).
Proof. unfold ts_le. apply _. Defined.

(** Step 1 in the specification's words: the record's subcategory is the
    selected region, its category the selected type, and its date lies in
    the closed interval from startDate to endDate. *)
Definition selected (s : FilterSelection) (r : Row) : Prop :=
  region r = sel_region s /\ type r = sel_type s
  /\ ts_le (start_date s) (Date r) /\ ts_le (Date r) (end_date s).

#[export] Instance selected_dec s r : Decision (selected s r).
Proof. unfold selected. apply _. Defined.

(** Step 3's filter in the specification's words: category and date only. *)
Definition in_window (s : FilterSelection) (r : Row) : Prop :=
  type r = sel_type s
  /\ ts_le (start_date s) (Date r) /\ ts_le (Date r) (end_date s).

#[export] Instance in_window_dec s r : Decision (in_window s r).
Proof. unfold in_window. apply _. Defined.

(** The calendar year of a record. *)
Definition year_of (r : Row) : Z := ts_year (Date r).

(** A query expression read row by row. *)
Fixpoint holds (e : expr) (r : Row) : bool :=
  match e with
  | QEqStr column v => String.eqb (column r) v
  | QDateGe v => ts_leb v (Date r)
  | QDateLe v => ts_leb (Date r) v
  | QAnd e1 e2 => holds e1 r && holds e2 r
  end.

(** What [yearly_data] returns when [data] holds [records]. *)
Definition yearly_data_value `{Reducers} (records : list Row) (s : FilterSelection)
    : list YearlyRow :=
  let filtered := loc (eval (filtered_query s) records) records in
  agg_year <$> groupby Z.compare fst (zip (year_of <$> filtered) filtered).

(** What [top_regions] returns when [data] holds [records]. *)
Definition top_regions_value `{SortKind} `{Reducers} (records : list Row)
    (s : FilterSelection) : list RegionRow :=
  let matching := loc (eval (top_query s) records) records in
  head 10 (sort_values rg_Total_Volume Qle_bool false
             (agg_region <$> groupby String.compare region matching)).

(** One row of the yearly table from one year's records. *)
Definition yearly_row `{Reducers} (g : Z * list Row) : YearlyRow :=
  mkYearly g.1 (mean (AveragePrice <$> g.2)) (sum (Total_Volume <$> g.2)).

(** A group with its members mapped. *)
Definition map_group {K A B : Type} (f : A -> B) (p : K * list A)
    : K * list B :=
  (p.1, f <$> p.2).

(** The per-region totals of Step 3, before the sort. *)
Definition region_totals `{Reducers} (records : list Row) (s : FilterSelection)
    : list RegionRow :=
  agg_region <$> groupby String.compare region (filter (in_window s) records).

(** A three-way comparison that decides a strict total order. *)
Class CmpOrder {K : Type} (cmp : K -> K -> comparison) : Prop := {
  cmp_eq : forall x y, cmp x y = Eq <-> x = y;
  cmp_antisym : forall x y, cmp x y = CompOpp (cmp y x);
  cmp_lt_trans : forall x y z, cmp x y = Lt -> cmp y z = Lt -> cmp x z = Lt
}.

Definition cmp_lt {K : Type} (cmp : K -> K -> comparison) : relation K :=
  fun x y => cmp x y = Lt.

(** ** Sample data *)

Definition jan4 : Timestamp := mkTimestamp 2015 1 4.

Definition eighteen_regions : list string :=
  ["R00"; "R01"; "R02"; "R03"; "R04"; "R05"; "R06"; "R07"; "R08"; "R09";
   "R10"; "R11"; "R12"; "R13"; "R14"; "R15"; "R16"; "R17"].

(** One organic line of 100 units dated 2015-01-04 in the given region. *)
Definition csv_row_of (rgn : string) : CsvRow :=
  mkCsvRow "2015-01-04" 1 100 "organic" rgn.

(** The scenario of the specification's section 8. *)
Definition albany_records : list Row :=
  [mkRow (mkTimestamp 2015 1 4) 1 100 "organic" "Albany";
   mkRow (mkTimestamp 2016 1 3) 2 200 "organic" "Albany"].

Definition albany_selection : FilterSelection :=
  mkSelection "Albany" "organic" (mkTimestamp 2015 1 1) (mkTimestamp 2018 12 31).

(** Three lines of a source, out of date order. *)
Definition three_lines : list CsvRow :=
  [mkCsvRow "2016-01-03" 2 200 "organic" "Albany";
   mkCsvRow "2015-01-04" 1 100 "organic" "Albany";
   mkCsvRow "2015-12-27" 1 150 "conventional" "Boston"].

(** ** The layout's dropdowns (lines 45-72) *)

(** An entry of a dropdown's [options]. *)
Record DropdownOption := mkOption { opt_label : string; opt_value : string }.

(** Line 52: [{"label": region, "value": region} for region in regions]. *)
Definition region_options (regions : list string) : list DropdownOption :=
  (fun region => mkOption region region) <$> regions.

(** [str.title()] on ASCII text: a letter that follows a letter is put in
    lower case, any other letter in upper case; other characters are kept.
    A string is a sequence of bytes here, and a byte above 127 is kept as it
    is, so the model is exact on ASCII text only. *)
Definition is_upper (c : ascii) : bool :=
  (65 <=? nat_of_ascii c) && (nat_of_ascii c <=? 90).

Definition is_lower (c : ascii) : bool :=
  (97 <=? nat_of_ascii c) && (nat_of_ascii c <=? 122).

Definition to_upper (c : ascii) : ascii :=
  if is_lower c then ascii_of_nat (nat_of_ascii c - 32) else c.

Definition to_lower (c : ascii) : ascii :=
  if is_upper c then ascii_of_nat (nat_of_ascii c + 32) else c.

Fixpoint title_from (previous_is_cased : bool) (s : string) : string :=
  match s with
  | EmptyString => EmptyString
  | String c s' =>
      String (if previous_is_cased then to_lower c else to_upper c)
             (title_from (is_upper c || is_lower c) s')
  end.

Definition title (s : string) : string := title_from false s.

(** [str.lower()] on ASCII text. *)
Fixpoint lower (s : string) : string :=
  match s with
  | EmptyString => EmptyString
  | String c s' => String (to_lower c) (lower s')
  end.

Definition ascii_text (s : string) : Prop :=
  Forall (fun c => nat_of_ascii c < 128) (list_ascii_of_string s).

(** Lines 64-67:
    [{"label": avocado_type.title(), "value": avocado_type}
     for avocado_type in avocado_types]. *)
Definition type_options (avocado_types : list string) : list DropdownOption :=
  (fun avocado_type => mkOption (title avocado_type) avocado_type)
    <$> avocado_types.

(** * Facts *)

(** ** Orders *)

#[export] Instance Z_compare_order : CmpOrder Z.compare.
Proof.
  split.
  - apply Z.compare_eq_iff.
  - intros x y. apply Z.compare_antisym.
  - intros x y z. rewrite !Z.compare_lt_iff. lia.
Qed.

#[export] Instance String_compare_order : CmpOrder String.compare.
Proof.
  split.
  - apply String_as_OT.cmp_eq.
  - apply String_as_OT.cmp_antisym.
  - intros x y z Hxy Hyz. apply String_as_OT.cmp_lt.
    eapply String_as_OT.lt_trans; apply String_as_OT.cmp_lt; eassumption.
Qed.

Section GroupByFacts.
Context {K A : Type} `{EqDecision K} (cmp : K -> K -> comparison)
  `{!CmpOrder cmp} (key : A -> K).

Lemma cmp_lt_irrefl x : cmp x x <> Lt.
Proof. assert (cmp x x = Eq) as -> by (by apply cmp_eq). discriminate. Qed.

Lemma cmp_gt_lt x y : cmp x y = Gt -> cmp y x = Lt.
Proof. intros Hgt. rewrite cmp_antisym, Hgt. reflexivity. Qed.

Lemma group_insert_keys a G k :
  k ∈ (group_insert cmp key a G).*1 <-> k = key a \/ k ∈ G.*1.
Proof.
  induction G as [|[k' g] G IH]; simpl.
  - rewrite list_elem_of_singleton, elem_of_nil. tauto.
  - destruct (cmp (key a) k') eqn:Hc; simpl.
    + apply cmp_eq in Hc. subst k'. rewrite !elem_of_cons. tauto.
    + rewrite !elem_of_cons. simpl. tauto.
    + rewrite !elem_of_cons, IH. tauto.
Qed.

Lemma group_insert_sorted a G :
  StronglySorted (cmp_lt cmp) G.*1 ->
  StronglySorted (cmp_lt cmp) (group_insert cmp key a G).*1.
Proof.
  induction G as [|[k' g] G IH]; simpl; intros Hs.
  - repeat constructor.
  - apply StronglySorted_inv in Hs as [Hs Hall].
    destruct (cmp (key a) k') eqn:Hc; simpl.
    + by constructor.
    + constructor; [by constructor|].
      constructor; [done|].
      eapply Forall_impl; [exact Hall|].
      intros z Hz. by eapply cmp_lt_trans.
    + constructor; [by apply IH|].
      apply Forall_forall. intros z Hz.
      apply group_insert_keys in Hz as [->|Hz].
      * by apply cmp_gt_lt.
      * by eapply Forall_forall in Hall.
Qed.

Lemma group_insert_members a G k g' :
  StronglySorted (cmp_lt cmp) G.*1 ->
  (k, g') ∈ group_insert cmp key a G ->
  (k = key a /\ (g' = [a] /\ k ∉ G.*1 \/ exists g, (k, g) ∈ G /\ g' = g ++ [a]))
  \/ (k <> key a /\ (k, g') ∈ G).
Proof.
  induction G as [|[k' g] G IH]; simpl; intros Hs Hin.
  - apply list_elem_of_singleton in Hin. injection Hin as -> ->.
    left. split; [done|]. left. split; [done|]. apply not_elem_of_nil.
  - apply StronglySorted_inv in Hs as [Hs Hall].
    destruct (cmp (key a) k') eqn:Hc.
    + apply cmp_eq in Hc. subst k'.
      apply elem_of_cons in Hin as [Hin|Hin].
      * injection Hin as -> ->. left. split; [done|]. right.
        exists g. split; [left|done].
      * right. split; [|by right].
        intros ->. eapply Forall_forall in Hall;
          [|apply list_elem_of_fmap; exists (key a, g'); split; [done|exact Hin]].
        by apply cmp_lt_irrefl in Hall.
    + apply elem_of_cons in Hin as [Hin|Hin].
      * injection Hin as -> ->. left. split; [done|]. left. split; [done|].
        simpl. intros Hin. apply elem_of_cons in Hin as [Heq|Hin].
        { rewrite Heq in Hc. by apply cmp_lt_irrefl in Hc. }
        eapply Forall_forall in Hall; [|exact Hin].
        eapply cmp_lt_irrefl, cmp_lt_trans; [exact Hc|exact Hall].
      * right. split; [|done].
        intros ->. apply elem_of_cons in Hin as [Hin|Hin].
        { injection Hin as <- _. by apply cmp_lt_irrefl in Hc. }
        eapply Forall_forall in Hall;
          [|apply list_elem_of_fmap; exists (key a, g'); split; [done|exact Hin]].
        eapply cmp_lt_irrefl, cmp_lt_trans; [exact Hc|exact Hall].
    + apply elem_of_cons in Hin as [Hin|Hin].
      * injection Hin as -> ->. right. split; [|left].
        intros ->. rewrite (proj2 (cmp_eq _ _) eq_refl) in Hc. discriminate.
      * destruct (IH Hs Hin) as [[-> [[-> Hn]|(g0 & Hg0 & ->)]]|[Hne Hg]].
        -- left. split; [done|]. left. split; [done|].
           simpl. intros Hk. apply elem_of_cons in Hk as [Hk|Hk]; [|done].
           rewrite <- Hk, (proj2 (cmp_eq _ _) eq_refl) in Hc. discriminate.
        -- left. split; [done|]. right. exists g0. split; [by right|done].
        -- right. split; [done|by right].
Qed.

Lemma filter_none {B : Type} (P : B -> Prop) `{forall x, Decision (P x)} l :
  (forall x, x ∈ l -> ~ P x) -> filter P l = [].
Proof.
  induction l as [|x l IH]; intros Hl; [done|].
  rewrite filter_cons_False by (apply Hl; left).
  apply IH. intros y Hy. apply Hl. by right.
Qed.

Lemma groupby_snoc l a :
  groupby cmp key (l ++ [a]) = group_insert cmp key a (groupby cmp key l).
Proof. unfold groupby. by rewrite fold_left_app. Qed.

Lemma groupby_keys l k : k ∈ (groupby cmp key l).*1 <-> k ∈ key <$> l.
Proof.
  induction l as [|a l IH] using rev_ind.
  - done.
  - rewrite groupby_snoc, group_insert_keys, fmap_app, elem_of_app, IH.
    simpl. rewrite list_elem_of_singleton. tauto.
Qed.

Lemma groupby_sorted l : StronglySorted (cmp_lt cmp) (groupby cmp key l).*1.
Proof.
  induction l as [|a l IH] using rev_ind.
  - constructor.
  - rewrite groupby_snoc. by apply group_insert_sorted.
Qed.

Lemma groupby_members l k g :
  (k, g) ∈ groupby cmp key l ->
  g = filter (fun a => key a = k) l /\ g <> [].
Proof.
  revert k g. induction l as [|a l IH] using rev_ind; intros k g Hin.
  - by apply elem_of_nil in Hin.
  - rewrite groupby_snoc in Hin. rewrite filter_app.
    apply group_insert_members in Hin
      as [[-> [[-> Hn]|(g0 & Hg0 & ->)]]|[Hne Hg]]; [| | |apply groupby_sorted].
    + split; [|done].
      rewrite filter_cons_True, filter_nil by done.
      rewrite groupby_keys in Hn.
      assert (filter (fun a0 => key a0 = key a) l = []) as ->; [|done].
      apply filter_none. intros x Hx Hk. apply Hn.
      apply list_elem_of_fmap. by exists x.
    + apply IH in Hg0 as [-> _].
      rewrite filter_cons_True, filter_nil by done.
      split; [done|]. by destruct (filter _ l).
    + apply IH in Hg as [-> Hne'].
      rewrite filter_cons_False, filter_nil, app_nil_r by done. done.
Qed.

End GroupByFacts.

(** ** Positional selection and sorting *)

Section IlocFacts.
Context {A : Type}.
Implicit Types l : list A.

Lemma iloc_nil (indexer : list nat) : iloc indexer (@nil A) = [].
Proof. unfold iloc. by induction indexer as [|i indexer IH]. Qed.

Lemma iloc_seq_app l1 l2 : iloc (seq (length l1) (length l2)) (l1 ++ l2) = l2.
Proof.
  revert l1. induction l2 as [|x l2 IH]; intros l1; [done|].
  unfold iloc. simpl. rewrite list_lookup_middle by done. f_equal.
  specialize (IH (l1 ++ [x])). rewrite length_app, <- app_assoc in IH. simpl in IH.
  by rewrite Nat.add_1_r in IH.
Qed.

Lemma iloc_seq l : iloc (seq 0 (length l)) l = l.
Proof. apply (iloc_seq_app [] l). Qed.

Lemma iloc_Permutation indexer l :
  indexer ≡ₚ seq 0 (length l) -> iloc indexer l ≡ₚ l.
Proof.
  intros Hp. rewrite <- (iloc_seq l) at 2. unfold iloc. by rewrite Hp.
Qed.

Lemma iloc_fmap {B : Type} (f : A -> B) indexer l :
  iloc indexer (f <$> l) = f <$> iloc indexer l.
Proof.
  unfold iloc. rewrite list_fmap_omap. apply list_omap_ext.
  apply Forall2_same_length_lookup. split; [done|].
  intros i x y Hx Hy. rewrite Hx in Hy. injection Hy as <-.
  apply list_lookup_fmap.
Qed.

Lemma iloc_reverse indexer l : iloc (reverse indexer) l = reverse (iloc indexer l).
Proof.
  unfold iloc. induction indexer as [|i indexer IH]; [done|].
  rewrite reverse_cons, omap_app, IH. simpl.
  destruct (l !! i); simpl; [by rewrite reverse_cons|by rewrite app_nil_r].
Qed.

Lemma iloc_mirror indexer l :
  Forall (fun j => j < length l) indexer ->
  iloc ((fun j => length l - 1 - j) <$> indexer) l = iloc indexer (reverse l).
Proof.
  intros Hall. unfold iloc. apply list_omap_ext, Forall2_fmap_l.
  apply Forall_Forall2_diag. eapply Forall_impl; [exact Hall|].
  intros j Hj. simpl. rewrite reverse_lookup by done.
  by replace (length l - 1 - j) with (length l - S j) by lia.
Qed.

End IlocFacts.

Lemma StronglySorted_reverse {A : Type} (R : relation A) (l : list A) :
  StronglySorted R l -> StronglySorted (flip R) (reverse l).
Proof.
  induction 1 as [|x l Hs IH Hall]; [constructor|].
  rewrite reverse_cons. apply StronglySorted_app_2.
  - intros y z Hy Hz. apply list_elem_of_singleton in Hz as ->.
    rewrite elem_of_reverse in Hy. unfold flip.
    rewrite Forall_forall in Hall. by apply Hall.
  - exact IH.
  - repeat constructor.
Qed.

Lemma StronglySorted_fmap_inv {A B : Type} (f : A -> B) (R : relation B) (l : list A) :
  StronglySorted R (f <$> l) -> StronglySorted (fun x y => R (f x) (f y)) l.
Proof.
  induction l as [|x l IH]; intros Hs; [constructor|].
  rewrite fmap_cons in Hs. apply StronglySorted_inv in Hs as [Hs Hall].
  constructor; [by apply IH|].
  rewrite Forall_fmap in Hall. exact Hall.
Qed.

Lemma seq_mirror n : (fun j => n - 1 - j) <$> seq 0 n ≡ₚ seq 0 n.
Proof.
  apply NoDup_Permutation.
  - apply NoDup_fmap_2_strong; [|apply NoDup_seq].
    intros x y Hx Hy. apply elem_of_seq in Hx, Hy. lia.
  - apply NoDup_seq.
  - intros x. rewrite list_elem_of_fmap. setoid_rewrite elem_of_seq. split.
    + intros (y & -> & Hy). lia.
    + intros Hx. exists (n - 1 - x). lia.
Qed.

Section SortFacts.
Context `{SortKind}.

Lemma argsort_bound {K : Type} (leb : K -> K -> bool) keys :
  Forall (fun j => j < length keys) (argsort leb keys).
Proof.
  apply Forall_forall. intros j Hj.
  rewrite (argsort_Permutation leb keys) in Hj. apply elem_of_seq in Hj. lia.
Qed.

Lemma nargsort_Permutation {K : Type} (leb : K -> K -> bool) ascending keys :
  nargsort leb ascending keys ≡ₚ seq 0 (length keys).
Proof.
  unfold nargsort. destruct ascending; [apply argsort_Permutation|].
  rewrite reverse_Permutation, argsort_Permutation, length_reverse.
  apply seq_mirror.
Qed.

Lemma nargsort_ascending {K : Type} (leb : K -> K -> bool) keys :
  Transitive (ble leb) -> Total (ble leb) ->
  StronglySorted (ble leb) (iloc (nargsort leb true keys) keys).
Proof. intros. by apply argsort_sorted. Qed.

Lemma nargsort_descending {K : Type} (leb : K -> K -> bool) keys :
  Transitive (ble leb) -> Total (ble leb) ->
  StronglySorted (flip (ble leb)) (iloc (nargsort leb false keys) keys).
Proof.
  intros Htr Htot. unfold nargsort.
  rewrite iloc_reverse, iloc_mirror.
  - by apply StronglySorted_reverse, argsort_sorted.
  - pose proof (argsort_bound leb (reverse keys)) as Hb.
    by rewrite length_reverse in Hb.
Qed.

Lemma sort_values_Permutation {A K : Type} (by_ : A -> K) leb ascending (l : list A) :
  sort_values by_ leb ascending l ≡ₚ l.
Proof.
  unfold sort_values. apply iloc_Permutation.
  rewrite nargsort_Permutation. by rewrite length_fmap.
Qed.

Lemma sort_values_ascending {A K : Type} (by_ : A -> K) leb (l : list A) :
  Transitive (ble leb) -> Total (ble leb) ->
  StronglySorted (fun a b => ble leb (by_ a) (by_ b)) (sort_values by_ leb true l).
Proof.
  intros Htr Htot. apply StronglySorted_fmap_inv.
  unfold sort_values. rewrite <- iloc_fmap. by apply nargsort_ascending.
Qed.

Lemma sort_values_descending {A K : Type} (by_ : A -> K) leb (l : list A) :
  Transitive (ble leb) -> Total (ble leb) ->
  StronglySorted (fun a b => ble leb (by_ b) (by_ a)) (sort_values by_ leb false l).
Proof.
  intros Htr Htot.
  apply (StronglySorted_fmap_inv by_ (flip (ble leb))).
  unfold sort_values. rewrite <- iloc_fmap. by apply nargsort_descending.
Qed.

Lemma sort_values_nil {A K : Type} (by_ : A -> K) leb ascending :
  sort_values by_ leb ascending (@nil A) = [].
Proof. apply iloc_nil. Qed.

Lemma sort_values_singleton {A K : Type} (by_ : A -> K) leb ascending (x : A) :
  sort_values by_ leb ascending [x] = [x].
Proof. apply Permutation_singleton_r, sort_values_Permutation. Qed.

End SortFacts.

(** ** The two routines meet the contract *)

Section KindFacts.
Context {K : Type} (leb : K -> K -> bool).

Lemma insert_key_Permutation p (l : list (nat * K)) :
  insert_key leb p l ≡ₚ p :: l.
Proof.
  induction l as [|q l IH]; [done|]. simpl.
  destruct (leb p.2 q.2); [done|]. rewrite IH. apply Permutation_swap.
Qed.

Lemma insertion_Permutation (l : list (nat * K)) :
  foldr (insert_key leb) [] l ≡ₚ l.
Proof.
  induction l as [|p l IH]; [done|]. simpl.
  by rewrite insert_key_Permutation, IH.
Qed.

Lemma insert_key_sorted p (l : list (nat * K)) :
  Transitive (ble leb) -> Total (ble leb) ->
  StronglySorted (fun a b => ble leb a.2 b.2) l ->
  StronglySorted (fun a b => ble leb a.2 b.2) (insert_key leb p l).
Proof.
  intros Htr Htot. induction 1 as [|q l Hs IH Hall]; simpl.
  - repeat constructor.
  - destruct (leb p.2 q.2) eqn:Hpq.
    + constructor; [by constructor|].
      constructor; [done|].
      eapply Forall_impl; [exact Hall|]. intros z Hz. by transitivity q.2.
    + constructor; [done|].
      apply Forall_forall. intros z Hz.
      rewrite insert_key_Permutation in Hz.
      apply elem_of_cons in Hz as [->|Hz].
      * destruct (Htot p.2 q.2) as [Hle|Hle]; [|done].
        unfold ble in Hle. congruence.
      * rewrite Forall_forall in Hall. by apply Hall.
Qed.

Lemma stable_argsort_Permutation keys :
  stable_argsort leb keys ≡ₚ seq 0 (length keys).
Proof.
  unfold stable_argsort. rewrite insertion_Permutation, fmap_imap.
  rewrite (imap_ext _ (fun j _ => j) keys) by done.
  rewrite (imap_seq_0 keys (fun j => j)). by rewrite list_fmap_id.
Qed.

Lemma stable_argsort_sorted keys :
  Transitive (ble leb) -> Total (ble leb) ->
  StronglySorted (ble leb) (iloc (stable_argsort leb keys) keys).
Proof.
  intros Htr Htot. unfold stable_argsort.
  set (R := fun p q : nat * K => ble leb p.2 q.2).
  assert (StronglySorted R (foldr (insert_key leb) [] (imap pair keys))) as Hs.
  { induction (imap pair keys) as [|p l IH]; [constructor|].
    simpl. by apply insert_key_sorted. }
  pose proof (insertion_Permutation (imap pair keys)) as Hp.
  set (L := foldr (insert_key leb) [] (imap pair keys)) in *.
  assert (iloc L.*1 keys = L.*2) as ->.
  { unfold iloc. rewrite (list_fmap_alt snd L). apply list_omap_ext.
    apply Forall2_fmap_l, Forall_Forall2_diag, Forall_forall.
    intros [i k] Hin. simpl. rewrite Hp in Hin.
    apply elem_of_lookup_imap in Hin as (j & y & Heq & Hy).
    by injection Heq as -> ->. }
  by apply (StronglySorted_fmap snd R).
Qed.

Lemma sortedb_Sorted (l : list K) :
  sortedb leb l = true -> Sorted (ble leb) l.
Proof.
  induction l as [|x [|y l] IH]; intros Hb; [constructor|by repeat constructor|].
  simpl in Hb. apply andb_prop in Hb as [Hxy Hb].
  constructor; [by apply IH|by constructor].
Qed.

Lemma is_argsort_Permutation keys indexer :
  is_argsort leb keys indexer = true -> indexer ≡ₚ seq 0 (length keys).
Proof.
  unfold is_argsort. intros Hb.
  apply andb_prop in Hb as [Hb _]. apply andb_prop in Hb as [Hlen Hall].
  apply Nat.eqb_eq in Hlen. symmetry.
  apply submseteq_length_Permutation.
  - apply NoDup_submseteq; [apply NoDup_seq|].
    intros i Hi. rewrite forallb_forall in Hall.
    apply list_elem_of_In, Hall in Hi. by apply bool_decide_eq_true in Hi.
  - rewrite length_seq. lia.
Qed.

Lemma is_argsort_sorted keys indexer :
  Transitive (ble leb) -> is_argsort leb keys indexer = true ->
  StronglySorted (ble leb) (iloc indexer keys).
Proof.
  unfold is_argsort. intros Htr Hb. apply andb_prop in Hb as [_ Hb].
  by apply Sorted_StronglySorted, sortedb_Sorted.
Qed.

Lemma quicksort_argsort_Permutation keys :
  quicksort_argsort leb keys ≡ₚ seq 0 (length keys).
Proof.
  unfold quicksort_argsort.
  destruct (aquicksort leb keys) as [indexer|];
    [|apply stable_argsort_Permutation].
  destruct (is_argsort leb keys indexer) eqn:Hb;
    [by apply is_argsort_Permutation|apply stable_argsort_Permutation].
Qed.

Lemma quicksort_argsort_sorted keys :
  Transitive (ble leb) -> Total (ble leb) ->
  StronglySorted (ble leb) (iloc (quicksort_argsort leb keys) keys).
Proof.
  intros Htr Htot. unfold quicksort_argsort.
  destruct (aquicksort leb keys) as [indexer|];
    [|by apply stable_argsort_sorted].
  destruct (is_argsort leb keys indexer) eqn:Hb;
    [by apply is_argsort_sorted|by apply stable_argsort_sorted].
Qed.

End KindFacts.

(** pandas' kind="stable". *)
Definition stable_kind : SortKind :=
  {| argsort := @stable_argsort;
     argsort_Permutation := @stable_argsort_Permutation;
     argsort_sorted := fun K leb Htr Htot keys =>
       stable_argsort_sorted leb keys Htr Htot |}.

(** pandas' default, kind="quicksort". *)
Definition quicksort_kind : SortKind :=
  {| argsort := @quicksort_argsort;
     argsort_Permutation := @quicksort_argsort_Permutation;
     argsort_sorted := fun K leb Htr Htot keys =>
       quicksort_argsort_sorted leb keys Htr Htot |}.

(** ** The orders of the three sort keys *)

Lemma ts_leb_spec a b : ts_leb a b = true <-> ts_le a b.
Proof.
  unfold ts_leb, ts_compare, ts_le.
  destruct (Z.compare_spec (ts_year a) (ts_year b));
    destruct (Z.compare_spec (ts_month a) (ts_month b));
    destruct (Z.compare_spec (ts_day a) (ts_day b));
    split; intros Hx; try done; try lia.
Qed.

#[export] Instance ts_leb_trans : Transitive (ble ts_leb).
Proof.
  intros a b c. unfold ble. rewrite !ts_leb_spec. unfold ts_le. lia.
Qed.

#[export] Instance ts_leb_total : Total (ble ts_leb).
Proof.
  intros a b. unfold ble. rewrite !ts_leb_spec. unfold ts_le. lia.
Qed.

#[export] Instance Qle_bool_trans : Transitive (ble Qle_bool).
Proof.
  intros a b c. unfold ble. rewrite !Qle_bool_iff. apply Qle_trans.
Qed.

#[export] Instance Qle_bool_total : Total (ble Qle_bool).
Proof.
  intros a b. unfold ble. rewrite !Qle_bool_iff.
  destruct (Qlt_le_dec a b) as [Hlt|Hle]; [left; by apply Qlt_le_weak|by right].
Qed.

#[export] Instance String_leb_trans : Transitive (ble String.leb).
Proof.
  intros a b c. unfold ble, String.leb. intros Hab Hbc.
  destruct (String.compare a b) eqn:Eab; [| |done].
  - apply (cmp_eq (cmp:=String.compare)) in Eab. by subst b.
  - destruct (String.compare b c) eqn:Ebc; [| |done].
    + apply (cmp_eq (cmp:=String.compare)) in Ebc. subst c. by rewrite Eab.
    + by rewrite (cmp_lt_trans (cmp:=String.compare) a b c).
Qed.

#[export] Instance String_leb_total : Total (ble String.leb).
Proof. intros a b. apply String.leb_total. Qed.

Lemma String_leb_ne_lt a b :
  String.leb a b = true -> a <> b -> String.compare a b = Lt.
Proof.
  unfold String.leb. intros Hle Hne.
  destruct (String.compare a b) eqn:Eab; [|done|done].
  by apply (cmp_eq (cmp:=String.compare)) in Eab.
Qed.

(** ** Queries select the rows their expression holds of *)

Lemma eval_holds e rs : eval e rs = holds e <$> rs.
Proof.
  induction e as [| | |e1 IH1 e2 IH2]; simpl; try done.
  rewrite IH1, IH2, zip_with_fmap_l, zip_with_fmap_r. apply zip_with_diag.
Qed.

Lemma loc_fmap_filter {A : Type} (f : A -> bool) (P : A -> Prop)
    `{forall x, Decision (P x)} (l : list A) :
  (forall x, f x = true <-> P x) -> loc (f <$> l) l = filter P l.
Proof.
  intros Hf. induction l as [|x l IH]; [done|].
  rewrite fmap_cons. simpl. rewrite IH. rewrite filter_cons.
  destruct (f x) eqn:Hfx.
  - rewrite decide_True by by apply Hf. done.
  - rewrite decide_False; [done|]. rewrite <- Hf. congruence.
Qed.

Lemma holds_filtered_query s r : holds (filtered_query s) r = true <-> selected s r.
Proof.
  unfold selected. simpl. rewrite !andb_true_iff, !String.eqb_eq, !ts_leb_spec.
  tauto.
Qed.

Lemma holds_top_query s r : holds (top_query s) r = true <-> in_window s r.
Proof.
  unfold in_window. simpl. rewrite !andb_true_iff, !String.eqb_eq, !ts_leb_spec.
  tauto.
Qed.

Lemma loc_filtered_query s rs :
  loc (eval (filtered_query s) rs) rs = filter (selected s) rs.
Proof. rewrite eval_holds. apply loc_fmap_filter, holds_filtered_query. Qed.

Lemma loc_top_query s rs :
  loc (eval (top_query s) rs) rs = filter (in_window s) rs.
Proof. rewrite eval_holds. apply loc_fmap_filter, holds_top_query. Qed.

(** ** [unique] *)

Lemma elem_of_unique_from seen l x :
  x ∈ unique_from seen l <-> x ∈ l /\ x ∉ seen.
Proof.
  revert seen. induction l as [|y l IH]; intros seen; simpl.
  - rewrite elem_of_nil. tauto.
  - destruct (decide (y ∈ seen)) as [Hy|Hy].
    + rewrite IH, elem_of_cons. split; [tauto|].
      intros [[->|Hx] Hn]; tauto.
    + rewrite !elem_of_cons, IH, not_elem_of_union, not_elem_of_singleton.
      split; [intros [->|(Hx & Hne & Hn)]; tauto|].
      intros [[->|Hx] Hn]; [by left|].
      destruct (decide (x = y)) as [->|Hne]; [by left|right; tauto].
Qed.

Lemma NoDup_unique_from seen l : NoDup (unique_from seen l).
Proof.
  revert seen. induction l as [|y l IH]; intros seen; simpl; [constructor|].
  destruct (decide (y ∈ seen)); [apply IH|].
  constructor; [|apply IH].
  rewrite elem_of_unique_from, not_elem_of_union, not_elem_of_singleton.
  tauto.
Qed.

Lemma unique_from_sorted (R : relation string) seen l :
  StronglySorted R l -> StronglySorted R (unique_from seen l).
Proof.
  intros Hs. revert seen. induction Hs as [|y l Hs IH Hall]; intros seen; simpl;
    [constructor|].
  destruct (decide (y ∈ seen)); [apply IH|].
  constructor; [apply IH|].
  apply Forall_forall. intros x Hx. apply elem_of_unique_from in Hx as [Hx _].
  rewrite Forall_forall in Hall. by apply Hall.
Qed.

Lemma elem_of_unique l x : x ∈ unique l <-> x ∈ l.
Proof.
  unfold unique. rewrite elem_of_unique_from. split; [tauto|].
  intros Hx. split; [done|]. apply not_elem_of_empty.
Qed.

(** ** Running the callback *)

(** One step of a computation: unfold the monad's operations. *)
Ltac step_M :=
  unfold mbind, M_bind, bind, read, mret, M_ret, ret.

Section Runs.
Context `{SortKind} `{Reducers}.
Implicit Types h : heap.

Lemma fresh_not_data h df : h !! data = Some df -> fresh (dom h) <> data.
Proof.
  intros Hd Heq. apply (is_fresh (dom h)). rewrite Heq.
  apply elem_of_dom. by exists df.
Qed.

Lemma query_run r e h df :
  h !! r = Some df ->
  query r e h =
    Ok (fresh (dom h))
       (<[fresh (dom h) :=
            mkFrame (loc (eval e (rows df)) (rows df))
                    (loc (eval e (rows df)) <$> Year df)]> h).
Proof.
  intros Hr. unfold query. step_M. by rewrite Hr.
Qed.

Lemma yearly_data_run h df s :
  h !! data = Some df ->
  yearly_data s h =
    Ok (yearly_data_value (rows df) s)
       (<[fresh (dom h) :=
            let filtered := loc (eval (filtered_query s) (rows df)) (rows df) in
            mkFrame filtered (Some (year_of <$> filtered))]> h).
Proof.
  intros Hd. unfold yearly_data. step_M.
  rewrite (query_run _ _ _ _ Hd).
  unfold dt_year. step_M. rewrite lookup_insert_eq. simpl.
  unfold setitem_Year. rewrite lookup_insert_eq. simpl.
  rewrite length_fmap, Nat.eqb_refl, insert_insert_eq.
  unfold groupby_Year_agg. step_M. by rewrite lookup_insert_eq.
Qed.

Lemma top_regions_run h df s :
  h !! data = Some df ->
  top_regions s h =
    Ok (top_regions_value (rows df) s)
       (<[fresh (dom h) :=
            let mask := eval (top_query s) (rows df) in
            mkFrame (loc mask (rows df)) (loc mask <$> Year df)]> h).
Proof.
  intros Hd. unfold top_regions. step_M.
  rewrite (query_run _ _ _ _ Hd).
  unfold groupby_region_sum. step_M. by rewrite lookup_insert_eq.
Qed.

(** Both tables, and a heap in which [data] is the frame it was. *)
Lemma pipeline_run h df s :
  h !! data = Some df ->
  exists h',
    pipeline s h = Ok (yearly_data_value (rows df) s, top_regions_value (rows df) s) h'
    /\ h' !! data = Some df.
Proof.
  intros Hd. unfold pipeline. step_M.
  rewrite (yearly_data_run _ _ _ Hd).
  set (h1 := <[fresh (dom h) := _]> h).
  assert (h1 !! data = Some df) as Hd1.
  { unfold h1. rewrite lookup_insert_ne; [done|by eapply fresh_not_data]. }
  rewrite (top_regions_run _ _ _ Hd1).
  eexists. split; [reflexivity|].
  rewrite lookup_insert_ne; [done|by eapply fresh_not_data].
Qed.

Lemma update_charts_run h df s :
  h !! data = Some df ->
  exists h',
    update_charts s h
      = Ok (figures (yearly_data_value (rows df) s) (top_regions_value (rows df) s)) h'
    /\ h' !! data = Some df.
Proof.
  intros Hd. unfold update_charts. step_M.
  rewrite (yearly_data_run _ _ _ Hd).
  set (h1 := <[fresh (dom h) := _]> h).
  assert (h1 !! data = Some df) as Hd1.
  { unfold h1. rewrite lookup_insert_ne; [done|by eapply fresh_not_data]. }
  rewrite (top_regions_run _ _ _ Hd1).
  eexists. split; [reflexivity|].
  rewrite lookup_insert_ne; [done|by eapply fresh_not_data].
Qed.

Lemma boot_data records : boot records !! data = Some (mkFrame records None).
Proof. apply lookup_singleton_eq. Qed.

Lemma compute_value records s :
  value (compute records s)
    = Some (yearly_data_value records s, top_regions_value records s).
Proof.
  unfold compute.
  destruct (pipeline_run _ _ s (boot_data records)) as (h' & -> & _). done.
Qed.

End Runs.

(** ** The two tables, by groups *)

(** Grouping the images of the rows is grouping the rows. *)
Section GroupByMap.
Context {K A B : Type} (cmp : K -> K -> comparison) (key : B -> K) (f : A -> B).

Lemma group_insert_fmap a (G : list (K * list A)) :
  group_insert cmp key (f a) (map_group f <$> G)
  = map_group f <$> group_insert cmp (key ∘ f) a G.
Proof.
  induction G as [|[k g] G IH]; [done|].
  rewrite fmap_cons. simpl. destruct (cmp (key (f a)) k).
  - rewrite fmap_cons. unfold map_group. simpl. by rewrite fmap_app.
  - done.
  - rewrite fmap_cons. by rewrite IH.
Qed.

Lemma groupby_fmap (l : list A) :
  groupby cmp key (f <$> l) = map_group f <$> groupby cmp (key ∘ f) l.
Proof.
  induction l as [|a l IH] using rev_ind; [done|].
  rewrite fmap_app. simpl. rewrite !groupby_snoc, IH. apply group_insert_fmap.
Qed.

End GroupByMap.

Lemma yearly_data_value_groups `{Reducers} records s :
  yearly_data_value records s
  = yearly_row <$> groupby Z.compare year_of (filter (selected s) records).
Proof.
  unfold yearly_data_value. cbv zeta. rewrite loc_filtered_query.
  set (l := filter (selected s) records).
  rewrite zip_with_fmap_l, zip_with_diag.
  rewrite (groupby_fmap Z.compare fst (fun r => (year_of r, r))).
  rewrite <- list_fmap_compose. apply list_fmap_ext.
  intros i [k g] _. unfold yearly_row, agg_year. simpl.
  by rewrite <- !list_fmap_compose.
Qed.

(** ** The ranking *)

Lemma cmp_lt_sorted_NoDup {K : Type} (cmp : K -> K -> comparison) `{!CmpOrder cmp}
    (l : list K) :
  StronglySorted (cmp_lt cmp) l -> NoDup l.
Proof.
  induction 1 as [|x l Hs IH Hall]; constructor; [|done].
  intros Hx. rewrite Forall_forall in Hall. by apply Hall, cmp_lt_irrefl in Hx.
Qed.

Lemma distinct_count (ks l : list string) :
  NoDup ks -> (forall x, x ∈ ks <-> x ∈ l) ->
  length ks = size (list_to_set l : gset string).
Proof.
  intros Hnd Hiff. rewrite <- (size_list_to_set (C:=gset string) ks Hnd).
  f_equal. apply set_eq. intros x. by rewrite !elem_of_list_to_set.
Qed.

Lemma StronglySorted_mono {A : Type} (R1 R2 : relation A) (l : list A) :
  (forall x y, R1 x y -> R2 x y) -> StronglySorted R1 l -> StronglySorted R2 l.
Proof.
  intros HR. induction 1 as [|x l Hs IH Hall]; constructor; [done|].
  eapply Forall_impl; [exact Hall|]. intros y. apply HR.
Qed.

Lemma StronglySorted_take {A : Type} (R : relation A) n (l : list A) :
  StronglySorted R l -> StronglySorted R (take n l).
Proof.
  intros Hs. rewrite <- (take_drop n l) in Hs.
  by apply StronglySorted_app_1_l in Hs.
Qed.

Lemma elem_of_take {A : Type} n (l : list A) x : x ∈ take n l -> x ∈ l.
Proof. intros Hx. rewrite <- (take_drop n l). apply elem_of_app. by left. Qed.

Lemma NoDup_take {A : Type} n (l : list A) : NoDup l -> NoDup (take n l).
Proof.
  intros Hnd. rewrite <- (take_drop n l) in Hnd. by apply NoDup_app in Hnd as [? _].
Qed.

Section TopRegions.
Context `{SortKind} `{Reducers}.

Lemma top_regions_value_totals records s :
  top_regions_value records s
  = head 10 (sort_values rg_Total_Volume Qle_bool false (region_totals records s)).
Proof. unfold top_regions_value. cbv zeta. by rewrite loc_top_query. Qed.

Lemma region_totals_regions records s :
  rg_region <$> region_totals records s
  = (groupby String.compare region (filter (in_window s) records)).*1.
Proof.
  unfold region_totals. rewrite <- list_fmap_compose. by apply list_fmap_ext.
Qed.

Lemma region_totals_length records s :
  length (region_totals records s)
  = size (list_to_set (region <$> filter (in_window s) records) : gset string).
Proof.
  rewrite <- (length_fmap rg_region), region_totals_regions.
  apply distinct_count.
  - eapply cmp_lt_sorted_NoDup, groupby_sorted; apply _.
  - intros x. apply groupby_keys; apply _.
Qed.

Lemma region_totals_entry records s e :
  e ∈ region_totals records s ->
  rg_Total_Volume e
  = sum (Total_Volume <$> filter (fun r => region r = rg_region e)
                            (filter (in_window s) records)).
Proof.
  unfold region_totals. intros He.
  apply list_elem_of_fmap in He as ([k g] & -> & Hg).
  apply groupby_members in Hg as [-> _]; [|apply _]. done.
Qed.

Lemma top_regions_value_length records s :
  length (top_regions_value records s)
  = min 10 (size (list_to_set (region <$> filter (in_window s) records) : gset string)).
Proof.
  rewrite top_regions_value_totals. unfold head.
  rewrite length_take, (Permutation_length (sort_values_Permutation _ _ _ _)).
  by rewrite region_totals_length.
Qed.

Lemma top_regions_value_sorted records s :
  StronglySorted (fun a b => (rg_Total_Volume b <= rg_Total_Volume a)%Q)
    (top_regions_value records s).
Proof.
  rewrite top_regions_value_totals. apply StronglySorted_take.
  eapply StronglySorted_mono;
    [|apply (sort_values_descending rg_Total_Volume Qle_bool); apply _].
  intros a b Hab. by apply Qle_bool_iff.
Qed.

Lemma top_regions_value_elem records s e :
  e ∈ top_regions_value records s -> e ∈ region_totals records s.
Proof.
  rewrite top_regions_value_totals. intros He. apply elem_of_take in He.
  by rewrite sort_values_Permutation in He.
Qed.

Lemma top_regions_value_NoDup records s :
  NoDup (rg_region <$> top_regions_value records s).
Proof.
  rewrite top_regions_value_totals. unfold head. rewrite fmap_take.
  apply NoDup_take. rewrite sort_values_Permutation, region_totals_regions.
  eapply cmp_lt_sorted_NoDup, groupby_sorted; apply _.
Qed.

End TopRegions.


Lemma ts_le_trans a b c : ts_le a b -> ts_le b c -> ts_le a c.
Proof. unfold ts_le. lia. Qed.

Lemma ts_compare_Gt a b : ts_compare a b = Gt -> ~ ts_le a b.
Proof.
  intros Hc Hle. apply ts_leb_spec in Hle. unfold ts_leb in Hle.
  by rewrite Hc in Hle.
Qed.

Lemma yearly_data_value_nil `{Reducers} records s :
  filter (selected s) records = [] -> yearly_data_value records s = [].
Proof. intros Hf. by rewrite yearly_data_value_groups, Hf. Qed.

Section Vocabulary.
Context `{SortKind} `{Reducers}.

Lemma top_regions_value_nil records s :
  filter (in_window s) records = [] -> top_regions_value records s = [].
Proof.
  intros Hf. rewrite top_regions_value_totals. unfold region_totals.
  rewrite Hf. unfold groupby. simpl. by rewrite sort_values_nil.
Qed.

Lemma sorted_unique_strict (l : list string) :
  StronglySorted (ble String.leb) l -> NoDup l ->
  StronglySorted (cmp_lt String.compare) l.
Proof.
  induction 1 as [|x l Hs IH Hall]; intros Hnd; [constructor|].
  apply NoDup_cons in Hnd as [Hx Hnd]. constructor; [by apply IH|].
  apply Forall_forall. intros y Hy. rewrite Forall_forall in Hall.
  apply String_leb_ne_lt; [by apply Hall|]. by intros ->.
Qed.

(** A vocabulary: the distinct values of a column, ascending. *)
Lemma vocabulary_spec (column : list string) :
  let v := unique (sort_values id String.leb true column) in
  StronglySorted (cmp_lt String.compare) v
  /\ NoDup v
  /\ forall x, x ∈ v <-> x ∈ column.
Proof.
  cbv zeta. split; [|split].
  - apply sorted_unique_strict; [|apply NoDup_unique_from].
    apply unique_from_sorted.
    apply (sort_values_ascending id String.leb); apply _.
  - apply NoDup_unique_from.
  - intros x. by rewrite elem_of_unique, sort_values_Permutation.
Qed.

Lemma elem_of_regions records x : x ∈ regions records <-> x ∈ region <$> records.
Proof. apply (vocabulary_spec (region <$> records)). Qed.

Lemma elem_of_avocado_types records x :
  x ∈ avocado_types records <-> x ∈ type <$> records.
Proof. apply (vocabulary_spec (type <$> records)). Qed.

End Vocabulary.


(** The heap after one call of the callback: the frames it had, and two new
    ones, the copy that received the Year column and the frame of the second
    query. *)
Lemma update_charts_heap `{SortKind} `{Reducers} (h : heap) (df : DataFrame)
    (s : FilterSelection) :
  h !! data = Some df ->
  exists copy matching,
    h !! copy = None /\ h !! matching = None /\ copy <> matching
    /\ update_charts s h
       = Ok (figures (yearly_data_value (rows df) s)
                     (top_regions_value (rows df) s))
            (<[matching := mkFrame (filter (in_window s) (rows df))
                             (loc (eval (top_query s) (rows df)) <$> Year df)]>
               (<[copy := mkFrame (filter (selected s) (rows df))
                            (Some (year_of <$> filter (selected s) (rows df)))]>
                  h)).
Proof.
  intros Hd. unfold update_charts. step_M.
  rewrite (yearly_data_run _ _ _ Hd). cbv zeta.
  set (copy := fresh (dom h)).
  set (h1 := <[copy := _]> h).
  assert (h1 !! data = Some df) as Hd1.
  { unfold h1. rewrite lookup_insert_ne; [done|by eapply fresh_not_data]. }
  rewrite (top_regions_run _ _ _ Hd1). cbv zeta.
  set (matching := fresh (dom h1)).
  assert (matching ∉ dom h1) as Hfresh by apply is_fresh.
  unfold h1 in Hfresh. rewrite dom_insert, not_elem_of_union in Hfresh.
  destruct Hfresh as [Hne Hm]. apply not_elem_of_singleton in Hne.
  exists copy, matching.
  split; [apply not_elem_of_dom, is_fresh|].
  split; [by apply not_elem_of_dom|]. split; [done|].
  unfold h1. by rewrite loc_filtered_query, loc_top_query.
Qed.

(** * The claims *)

Section Claims.
Context `{SortKind} `{Reducers}.
Variable to_datetime : string -> option Timestamp.


(** C2.  The ranking is computed from all the records filtered by type and
    date only: two selections that differ in the region alone get the same
    ranking, which is the first ten rows of the per-region totals of those
    records sorted by descending total.  And the ranking can be non-empty
    while the yearly series is empty: one Albany record, Boston selected. *)
Theorem top_regions_ignores_region (records : list Row)
    (rgn rgn' t : string) (sd ed : Timestamp) :
  (exists ys ys' ts,
     value (compute records (mkSelection rgn t sd ed)) = Some (ys, ts)
     /\ value (compute records (mkSelection rgn' t sd ed)) = Some (ys', ts)
     /\ ts = head 10 (sort_values rg_Total_Volume Qle_bool false
               (agg_region <$> groupby String.compare region
                  (filter (fun r => type r = t /\ ts_le sd (Date r) /\ ts_le (Date r) ed)
                          records))))
  /\ (exists records0 s0 ts0,
        value (compute records0 s0) = Some ([], ts0) /\ ts0 <> []).
Proof.
  split.
  - eexists _, _, _. rewrite !compute_value.
    split; [reflexivity|]. split; [reflexivity|].
    rewrite top_regions_value_totals. reflexivity.
  - exists [mkRow (mkTimestamp 2015 1 4) 1 100 "organic" "Albany"],
           (mkSelection "Boston" "organic" (mkTimestamp 2015 1 1) (mkTimestamp 2015 12 31)).
    exists [mkRegion "Albany" (sum [100%Q])].
    rewrite compute_value. split; [|discriminate].
    rewrite top_regions_value_totals. unfold head.
    change (region_totals _ _) with [mkRegion "Albany" (sum [100%Q])].
    rewrite sort_values_singleton. reflexivity.
Qed.


(** C5.  When start_date is after end_date the pipeline raises nothing and
    returns an empty yearly series and an empty ranking, and the callback
    returns three figures with no points. *)
Theorem inverted_date_range_is_empty (records : list Row) (s : FilterSelection) :
  ts_compare (start_date s) (end_date s) = Gt ->
  value (compute records s) = Some ([], [])
  /\ exists h', update_charts s (boot records) = Ok (figures [] []) h'.
Proof.
  intros Hgt. apply ts_compare_Gt in Hgt.
  assert (filter (selected s) records = []) as Hsel.
  { apply filter_none. intros r _ (_ & _ & H1 & H2).
    apply Hgt. by eapply ts_le_trans. }
  assert (filter (in_window s) records = []) as Hwin.
  { apply filter_none. intros r _ (_ & H1 & H2).
    apply Hgt. by eapply ts_le_trans. }
  split.
  - by rewrite compute_value, yearly_data_value_nil, top_regions_value_nil.
  - destruct (update_charts_run _ _ s (boot_data records)) as (h' & Hrun & _).
    exists h'. rewrite Hrun. simpl.
    by rewrite yearly_data_value_nil, top_regions_value_nil.
Qed.

(** C6.  The pipeline returns for every record set and every selection.  A
    region that is not in the loader's [regions] gives an empty yearly
    series; a type that is not in the loader's [avocado_types] gives an
    empty yearly series and an empty ranking. *)
Theorem unknown_value_yields_empty (records : list Row) (s : FilterSelection) :
  exists ys ts,
    value (compute records s) = Some (ys, ts)
    /\ (sel_region s ∉ regions records -> ys = [])
    /\ (sel_type s ∉ avocado_types records -> ys = [] /\ ts = []).
Proof.
  eexists _, _. split; [apply compute_value|]. split.
  - intros Hn. apply yearly_data_value_nil, filter_none.
    intros r Hr (Hreg & _). apply Hn, elem_of_regions.
    rewrite <- Hreg. by apply list_elem_of_fmap_2.
  - intros Hn. split.
    + apply yearly_data_value_nil, filter_none.
      intros r Hr (_ & Hty & _). apply Hn, elem_of_avocado_types.
      rewrite <- Hty. by apply list_elem_of_fmap_2.
    + apply top_regions_value_nil, filter_none.
      intros r Hr (Hty & _). apply Hn, elem_of_avocado_types.
      rewrite <- Hty. by apply list_elem_of_fmap_2.
Qed.

(** C7, as amended.  When every date of the source parses, the load
    succeeds and its record sequence is a rearrangement of the parsed rows
    that is sorted by ascending date.  Nothing is said of the order of
    records with equal dates. *)
Theorem load_sorted_by_date (csv : list CsvRow) :
  Forall (fun c => is_Some (to_datetime (csv_Date c))) csv ->
  exists parsed data_ types_ regions_,
    mapM (assign_Date to_datetime) csv = Some parsed
    /\ load to_datetime csv = Some (data_, types_, regions_)
    /\ data_ ≡ₚ parsed
    /\ StronglySorted (fun a b => ts_le (Date a) (Date b)) data_.
Proof.
  intros Hall.
  assert (is_Some (mapM (assign_Date to_datetime) csv)) as [parsed Hp].
  { apply mapM_is_Some. eapply Forall_impl; [exact Hall|].
    intros c [d Hd]. unfold assign_Date, compose. rewrite Hd. by eexists. }
  exists parsed. eexists _, _, _.
  split; [done|]. unfold load, load_data. rewrite Hp. simpl.
  split; [reflexivity|]. split; [apply sort_values_Permutation|].
  eapply StronglySorted_mono; [|apply (sort_values_ascending Date ts_leb); apply _].
  intros a b. apply ts_leb_spec.
Qed.

(** C8.  Each of the two derived vocabularies, [avocado_types] and
    [regions], is strictly ascending in the lexicographic order of strings,
    has no duplicate, and holds exactly the values its column takes in the
    loaded records. *)
Theorem vocabularies_sorted_distinct (records : list Row) :
  (StronglySorted (fun a b => String.compare a b = Lt) (avocado_types records)
   /\ NoDup (avocado_types records)
   /\ forall x, x ∈ avocado_types records <-> exists r, r ∈ records /\ type r = x)
  /\ (StronglySorted (fun a b => String.compare a b = Lt) (regions records)
      /\ NoDup (regions records)
      /\ forall x, x ∈ regions records <-> exists r, r ∈ records /\ region r = x).
Proof.
  split.
  - destruct (vocabulary_spec (type <$> records)) as (Hs & Hnd & Hel).
    split; [exact Hs|]. split; [exact Hnd|].
    intros x. unfold avocado_types. rewrite Hel, list_elem_of_fmap.
    split; intros (r & Hr1 & Hr2); exists r; done.
  - destruct (vocabulary_spec (region <$> records)) as (Hs & Hnd & Hel).
    split; [exact Hs|]. split; [exact Hnd|].
    intros x. unfold regions. rewrite Hel, list_elem_of_fmap.
    split; intros (r & Hr1 & Hr2); exists r; done.
Qed.

(** C9.  Called twice in a row with the same selection, the callback returns
    the same three figures, and so does the pipeline with its two tables,
    the ranking with its order of ties included: the result is the value of
    [compute] on the records and the selection, whatever the earlier calls
    left in the heap. *)
Theorem update_charts_is_repeatable (records : list Row) (s : FilterSelection) :
  exists charts tables h1 h2 h3 h4,
    update_charts s (boot records) = Ok charts h1
    /\ update_charts s h1 = Ok charts h2
    /\ pipeline s h2 = Ok tables h3
    /\ pipeline s h3 = Ok tables h4
    /\ value (compute records s) = Some tables
    /\ charts = figures tables.1 tables.2.
Proof.
  destruct (update_charts_run _ _ s (boot_data records)) as (h1 & Hr1 & Hd1).
  destruct (update_charts_run _ _ s Hd1) as (h2 & Hr2 & Hd2).
  destruct (pipeline_run _ _ s Hd2) as (h3 & Hr3 & Hd3).
  destruct (pipeline_run _ _ s Hd3) as (h4 & Hr4 & Hd4).
  eexists _, _, h1, h2, h3, h4.
  split; [exact Hr1|]. split; [exact Hr2|]. split; [exact Hr3|].
  split; [exact Hr4|]. split; [apply compute_value|done].
Qed.

(** C10.  A call of the callback on a heap in which [data] is the frame [df]
    returns, and afterwards [data] is still [df], every frame that existed
    is what it was, and the Year column sits in a frame that did not exist
    before: the copy made by the first query. *)
Theorem update_charts_leaves_data_unchanged (h : heap) (df : DataFrame)
    (s : FilterSelection) :
  h !! data = Some df ->
  exists charts h',
    update_charts s h = Ok charts h'
    /\ h' !! data = Some df
    /\ (forall r, is_Some (h !! r) -> h' !! r = h !! r)
    /\ exists copy,
         h !! copy = None
         /\ h' !! copy
            = Some (mkFrame (filter (selected s) (rows df))
                      (Some (year_of <$> filter (selected s) (rows df)))).
Proof.
  intros Hd.
  destruct (update_charts_heap h df s Hd)
    as (copy & matching & Hc & Hm & Hne & Hrun).
  eexists _, _. split; [exact Hrun|].
  assert (forall r, is_Some (h !! r) ->
            <[matching := mkFrame (filter (in_window s) (rows df))
                            (loc (eval (top_query s) (rows df)) <$> Year df)]>
              (<[copy := mkFrame (filter (selected s) (rows df))
                           (Some (year_of <$> filter (selected s) (rows df)))]> h)
              !! r = h !! r) as Hold.
  { intros r [x Hx]. rewrite !lookup_insert_ne; [done| |]; intros <-; congruence. }
  split; [rewrite Hold; [done|by eexists]|].
  split; [exact Hold|].
  exists copy. split; [done|].
  rewrite lookup_insert_ne by done. by rewrite lookup_insert_eq.
Qed.

End Claims.

(** * The claims at concrete inputs *)

(** The scenario of the specification: two Albany records, one per year.
    Whatever the sorting routine and the reducers, each year's entry is made
    from that year's record and the single bar from both. *)
Example albany_scenario `{SortKind} `{Reducers} :
  value (compute albany_records albany_selection)
  = Some ([mkYearly 2015 (mean [1%Q]) (sum [100%Q]);
           mkYearly 2016 (mean [2%Q]) (sum [200%Q])],
          [mkRegion "Albany" (sum [100%Q; 200%Q])]).
Proof.
  rewrite compute_value, top_regions_value_totals. unfold head.
  change (region_totals _ _) with [mkRegion "Albany" (sum [100%Q; 200%Q])].
  rewrite sort_values_singleton. reflexivity.
Qed.

(** The same in exact arithmetic. *)
Example albany_scenario_exact :
  value (@compute quicksort_kind exact_reducers albany_records albany_selection)
  = Some ([mkYearly 2015 1 100; mkYearly 2016 2 200],
          [mkRegion "Albany" 300]).
Proof. vm_compute. reflexivity. Qed.

(** C5 at a concrete input: the window 2018-12-31 .. 2015-01-01. *)
Lemma inverted_date_range_is_empty_witness :
  let s := mkSelection "Albany" "organic"
             (mkTimestamp 2018 12 31) (mkTimestamp 2015 1 1) in
  ts_compare (start_date s) (end_date s) = Gt
  /\ value (@compute quicksort_kind exact_reducers albany_records s) = Some ([], [])
  /\ exists h', @update_charts quicksort_kind exact_reducers s (boot albany_records)
                = Ok (figures [] []) h'.
Proof.
  split; [reflexivity|].
  apply (@inverted_date_range_is_empty quicksort_kind exact_reducers). reflexivity.
Defined.

(** C7 at a concrete input: three lines, out of order. *)
Lemma load_sorted_by_date_witness :
  let csv := [mkCsvRow "2016-01-03" 2 200 "organic" "Albany";
              mkCsvRow "2015-01-04" 1 100 "organic" "Albany";
              mkCsvRow "2015-12-27" 1 150 "conventional" "Boston"] in
  exists parsed data_ types_ regions_,
    mapM (assign_Date strptime_Ymd) csv = Some parsed
    /\ @load quicksort_kind strptime_Ymd csv = Some (data_, types_, regions_)
    /\ data_ ≡ₚ parsed
    /\ StronglySorted (fun a b => ts_le (Date a) (Date b)) data_.
Proof.
  apply (@load_sorted_by_date quicksort_kind strptime_Ymd).
  repeat (constructor; [by eexists|]). constructor.
Defined.

(** C7, the claim as stated fails: records with equal dates do not keep
    their order.  Eighteen lines, all dated 2015-01-04, in the order
    R00 .. R17: the loaded sequence has R15 second and R01 sixteenth. *)
Lemma load_breaks_tie_order :
  exists parsed data_,
    mapM (assign_Date strptime_Ymd) (csv_row_of <$> eighteen_regions) = Some parsed
    /\ @load_data quicksort_kind strptime_Ymd (csv_row_of <$> eighteen_regions)
       = Some data_
    /\ Forall (fun r => Date r = jan4) parsed
    /\ region <$> parsed = eighteen_regions
    /\ region <$> data_
       = ["R00"; "R15"; "R14"; "R13"; "R12"; "R11"; "R10"; "R09"; "R08";
          "R07"; "R06"; "R05"; "R04"; "R03"; "R02"; "R01"; "R16"; "R17"].
Proof.
  eexists _, _. split; [vm_compute; reflexivity|].
  split; [vm_compute; reflexivity|].
  split; [repeat constructor|]. split; reflexivity.
Qed.

(** C10 at a concrete input: the first call after the load. *)
Lemma update_charts_leaves_data_unchanged_witness :
  let h := boot albany_records in
  let df := mkFrame albany_records None in
  h !! data = Some df
  /\ exists charts h',
       @update_charts quicksort_kind exact_reducers albany_selection h = Ok charts h'
       /\ h' !! data = Some df
       /\ (forall r, is_Some (h !! r) -> h' !! r = h !! r)
       /\ exists copy,
            h !! copy = None
            /\ h' !! copy
               = Some (mkFrame (filter (selected albany_selection) (rows df))
                         (Some (year_of <$> filter (selected albany_selection)
                                              (rows df)))).
Proof.
  split; [reflexivity|].
  apply (@update_charts_leaves_data_unchanged quicksort_kind exact_reducers).
  reflexivity.
Defined.

(** * Further properties *)

(** ** The loader *)

Lemma mapM_None_iff {A B : Type} (f : A -> option B) (P : A -> Prop)
    (l : list A) :
  (forall x, f x = None <-> P x) -> mapM f l = None <-> Exists P l.
Proof.
  intros Hf. induction l as [|x l IH].
  - split; [done|]. by intros ?%Exists_nil.
  - rewrite Exists_cons, <- IH, <- Hf. simpl.
    destruct (f x) as [y|]; simpl; [|split; [by left|done]].
    destruct (mapM f l); simpl.
    + split; [done|]. intros [?|?]; done.
    + split; [by right|done].
Qed.

Section Further.
Context `{SortKind}.
Variable to_datetime : string -> option Timestamp.

(** X1.  The load fails exactly when some line of the source has a date the
    parser rejects: one bad date aborts the whole load (lines 5-9), and a
    source whose dates all parse always loads. *)
Theorem load_fails_iff_a_date_is_bad (csv : list CsvRow) :
  load to_datetime csv = None
  <-> Exists (fun c => to_datetime (csv_Date c) = None) csv.
Proof.
  unfold load, load_data.
  rewrite <- (mapM_None_iff (assign_Date to_datetime) _ csv).
  - destruct (mapM (assign_Date to_datetime) csv); simpl; split; done.
  - intros c. unfold assign_Date.
    destruct (to_datetime (csv_Date c)); simpl; split; done.
Qed.

(** X2.  A successful load keeps every line exactly once: the loaded
    records are a rearrangement of the source's lines with the date parsed
    and the other four fields untouched, as many records as lines, and the
    two vocabularies are those of the loaded records. *)
Theorem load_keeps_every_line (csv : list CsvRow) data_ types_ regions_ :
  load to_datetime csv = Some (data_, types_, regions_) ->
  (exists parsed,
     Forall2 (fun c r =>
                to_datetime (csv_Date c) = Some (Date r)
                /\ AveragePrice r = csv_AveragePrice c
                /\ Total_Volume r = csv_Total_Volume c
                /\ type r = csv_type c /\ region r = csv_region c)
             csv parsed
     /\ data_ ≡ₚ parsed)
  /\ length data_ = length csv
  /\ types_ = avocado_types data_
  /\ regions_ = regions data_.
Proof.
  unfold load, load_data.
  destruct (mapM (assign_Date to_datetime) csv) as [parsed|] eqn:Hp; [|done].
  simpl. intros [= <- <- <-].
  apply mapM_Some in Hp.
  assert (Forall2 (fun c r =>
                to_datetime (csv_Date c) = Some (Date r)
                /\ AveragePrice r = csv_AveragePrice c
                /\ Total_Volume r = csv_Total_Volume c
                /\ type r = csv_type c /\ region r = csv_region c)
             csv parsed) as HF.
  { eapply Forall2_impl; [exact Hp|]. intros c r. unfold assign_Date.
    destruct (to_datetime (csv_Date c)); simpl; [|done]. by intros [= <-]. }
  split; [exists parsed; split; [done|apply sort_values_Permutation]|].
  split; [|done].
  rewrite (Permutation_length (sort_values_Permutation _ _ _ _)).
  symmetry. by eapply Forall2_length.
Qed.

End Further.

(** ** The years of the yearly table, and the two filters *)

Lemma ascending_in_range (a b : Z) (l : list Z) :
  StronglySorted Z.lt l -> Forall (fun y => (a <= y <= b)%Z) l ->
  (Z.of_nat (length l) <= Z.max 0 (b - a + 1))%Z.
Proof.
  intros Hs. revert a. induction Hs as [|x l Hs IH Hall]; intros a Hr.
  - simpl. lia.
  - apply Forall_cons in Hr as [Hx Hr].
    assert (Forall (fun y => (x + 1 <= y <= b)%Z) l) as Hr'.
    { rewrite Forall_forall in Hall, Hr |- *. intros y Hy.
      specialize (Hall y Hy). specialize (Hr y Hy). lia. }
    specialize (IH _ Hr'). cbn [length]. lia.
Qed.

Lemma ts_le_year a b : ts_le a b -> (ts_year a <= ts_year b)%Z.
Proof. unfold ts_le. lia. Qed.

Lemma yearly_years `{Reducers} (records : list Row) s :
  yr_Year <$> yearly_data_value records s
  = (groupby Z.compare year_of (filter (selected s) records)).*1.
Proof.
  rewrite yearly_data_value_groups, <- list_fmap_compose.
  by apply list_fmap_ext.
Qed.

Lemma selected_in_window s r : selected s r <-> in_window s r /\ region r = sel_region s.
Proof. unfold selected, in_window. tauto. Qed.

Lemma filter_region_in_window (records : list Row) s :
  filter (fun r => region r = sel_region s) (filter (in_window s) records)
  = filter (selected s) records.
Proof.
  rewrite list_filter_filter. apply list_filter_iff. intros r.
  rewrite selected_in_window. tauto.
Qed.

Section Further2.
Context `{SortKind} `{Reducers}.

Lemma top_regions_value_nonempty (records : list Row) s r :
  r ∈ records -> in_window s r -> top_regions_value records s <> [].
Proof.
  intros Hr Hwin Hnil.
  pose proof (top_regions_value_length records s) as Hlen.
  rewrite Hnil in Hlen. cbn [length] in Hlen.
  assert (region r ∈ (list_to_set (region <$> filter (in_window s) records)
                       : gset string)) as Hin.
  { apply elem_of_list_to_set, list_elem_of_fmap_2, list_elem_of_filter. done. }
  assert (size (list_to_set (region <$> filter (in_window s) records)
                : gset string) <> 0) as Hsz.
  { intros Hz. apply size_empty_inv in Hz. apply leibniz_equiv in Hz.
    rewrite Hz in Hin. by apply not_elem_of_empty in Hin. }
  lia.
Qed.

(** X6.  The yearly series shows only years of the selected window: every
    year lies between the year of start_date and the year of end_date, so
    the series has at most (end year - start year + 1) entries. *)
Theorem yearly_years_within_window (records : list Row) (s : FilterSelection) :
  exists ys ts,
    value (compute records s) = Some (ys, ts)
    /\ (forall e, e ∈ ys ->
          (ts_year (start_date s) <= yr_Year e <= ts_year (end_date s))%Z)
    /\ (Z.of_nat (length ys)
        <= Z.max 0 (ts_year (end_date s) - ts_year (start_date s) + 1))%Z.
Proof.
  eexists _, _. split; [apply compute_value|].
  assert (Forall (fun y => (ts_year (start_date s) <= y <= ts_year (end_date s))%Z)
            (yr_Year <$> yearly_data_value records s)) as Hall.
  { apply Forall_forall. intros y Hy. rewrite yearly_years in Hy.
    apply (groupby_keys Z.compare year_of) in Hy.
    apply list_elem_of_fmap in Hy as (r & -> & Hr).
    apply list_elem_of_filter in Hr as [(_ & _ & H1 & H2) _].
    apply ts_le_year in H1, H2. unfold year_of. lia. }
  split.
  - intros e He. rewrite Forall_forall in Hall. apply Hall.
    by apply list_elem_of_fmap_2.
  - rewrite <- (length_fmap yr_Year). apply ascending_in_range; [|done].
    rewrite yearly_years.
    eapply StronglySorted_mono;
      [|apply (groupby_sorted Z.compare year_of)].
    intros x y. apply Z.compare_lt_iff.
Qed.

(** X7.  The two charts agree on the selected region: when it appears in
    the ranking, its bar is what the reducer "sum" makes of the Total Volume
    of exactly the records the yearly series is built from, those the first
    query selects, in the order of the table; and when the yearly series is
    not empty, neither is the ranking. *)
Theorem selected_region_in_both_charts (records : list Row) (s : FilterSelection) :
  exists ys ts,
    value (compute records s) = Some (ys, ts)
    /\ ys = yearly_row <$> groupby Z.compare year_of (filter (selected s) records)
    /\ (forall e, e ∈ ts -> rg_region e = sel_region s ->
          rg_Total_Volume e = sum (Total_Volume <$> filter (selected s) records))
    /\ (ys <> [] -> ts <> []).
Proof.
  eexists _, _. split; [apply compute_value|].
  split; [apply yearly_data_value_groups|]. split.
  - intros e He Hreg.
    rewrite (region_totals_entry records s e) by by apply top_regions_value_elem.
    by rewrite Hreg, filter_region_in_window.
  - intros Hys Hts. apply Hys. apply yearly_data_value_nil.
    apply filter_none. intros r Hr Hsel.
    apply selected_in_window in Hsel as [Hwin _].
    by apply (top_regions_value_nonempty records s r Hr).
Qed.

(** X8.  The ranking holds the largest totals: a region with records in the
    window that is not listed has a total no larger than any listed one; with
    at most ten such regions all of them are listed; and every listed region
    has a record of the selected type in the window. *)
Theorem ranking_holds_the_largest_totals (records : list Row) (s : FilterSelection) :
  exists ys ts,
    value (compute records s) = Some (ys, ts)
    /\ (forall e e', e ∈ ts -> e' ∈ region_totals records s -> e' ∉ ts ->
          (rg_Total_Volume e' <= rg_Total_Volume e)%Q)
    /\ (length (region_totals records s) <= 10 ->
        ts ≡ₚ region_totals records s)
    /\ (forall e, e ∈ ts ->
          exists r, r ∈ records /\ in_window s r /\ region r = rg_region e).
Proof.
  eexists _, _. split; [apply compute_value|].
  rewrite top_regions_value_totals. unfold head.
  set (L := sort_values rg_Total_Volume Qle_bool false (region_totals records s)).
  assert (L ≡ₚ region_totals records s) as HL by apply sort_values_Permutation.
  assert (StronglySorted (fun a b => (rg_Total_Volume b <= rg_Total_Volume a)%Q) L)
    as Hs.
  { eapply StronglySorted_mono;
      [|apply (sort_values_descending rg_Total_Volume Qle_bool); apply _].
    intros a b Hab. by apply Qle_bool_iff. }
  split; [|split].
  - intros e e' He He' Hn. rewrite <- HL in He'.
    rewrite <- (take_drop 10 L) in He', Hs.
    apply elem_of_app in He' as [He'|He']; [done|].
    by eapply (StronglySorted_app_1_elem_of _ _ _ e e') in Hs.
  - intros Hlen. rewrite take_ge; [done|].
    by rewrite (Permutation_length HL).
  - intros e He. apply elem_of_take in He. rewrite HL in He.
    unfold region_totals in He.
    apply list_elem_of_fmap in He as ([k g] & -> & Hg).
    assert (k ∈ (groupby String.compare region (filter (in_window s) records)).*1)
      as Hk by (apply list_elem_of_fmap; by exists (k, g)).
    apply (groupby_keys String.compare region) in Hk.
    apply list_elem_of_fmap in Hk as (r & -> & Hr).
    apply list_elem_of_filter in Hr as [Hw Hr]. by exists r.
Qed.

(** X10.  The yearly series is empty exactly when no record passes the
    first query's filter, and the ranking is empty exactly when no record
    passes the second's. *)
Theorem tables_empty_iff_nothing_matches (records : list Row) (s : FilterSelection) :
  exists ys ts,
    value (compute records s) = Some (ys, ts)
    /\ (ys = [] <-> forall r, r ∈ records -> ~ selected s r)
    /\ (ts = [] <-> forall r, r ∈ records -> ~ in_window s r).
Proof.
  eexists _, _. split; [apply compute_value|]. split.
  - split.
    + intros Hnil r Hr Hsel.
      assert (year_of r ∈ yr_Year <$> yearly_data_value records s) as Hy.
      { rewrite yearly_years. apply (groupby_keys Z.compare year_of).
        apply list_elem_of_fmap_2, list_elem_of_filter. done. }
      rewrite Hnil in Hy. by apply elem_of_nil in Hy.
    + intros Hn. by apply yearly_data_value_nil, filter_none.
  - split.
    + intros Hnil r Hr Hwin.
      by apply (top_regions_value_nonempty records s r Hr).
    + intros Hn. by apply top_regions_value_nil, filter_none.
Qed.

(** X11.  The three figures the callback returns (lines 142-225): the price
    and the volume trace have the same years on the x axis, strictly
    ascending, with one y value per year; the ranking trace has as many
    volumes as regions, at most ten, the volumes descending and the regions
    distinct. *)
Theorem figures_of_the_callback (records : list Row) (s : FilterSelection) :
  exists charts h',
    update_charts s (boot records) = Ok charts h'
    /\ fig_x (price_chart_figure charts) = fig_x (volume_chart_figure charts)
    /\ StronglySorted Z.lt (fig_x (price_chart_figure charts))
    /\ length (fig_y (price_chart_figure charts))
       = length (fig_x (price_chart_figure charts))
    /\ length (fig_y (volume_chart_figure charts))
       = length (fig_x (volume_chart_figure charts))
    /\ length (fig_x (top_region_chart_figure charts))
       = length (fig_y (top_region_chart_figure charts))
    /\ length (fig_y (top_region_chart_figure charts)) <= 10
    /\ StronglySorted (fun a b => (b <= a)%Q)
         (fig_x (top_region_chart_figure charts))
    /\ NoDup (fig_y (top_region_chart_figure charts)).
Proof.
  destruct (update_charts_run _ _ s (boot_data records)) as (h' & Hrun & _).
  eexists _, h'. split; [exact Hrun|]. simpl.
  split; [done|]. split.
  { rewrite yearly_years.
    eapply StronglySorted_mono; [|apply (groupby_sorted Z.compare year_of)].
    intros x y. apply Z.compare_lt_iff. }
  rewrite !length_fmap. split; [done|]. split; [done|]. split; [done|].
  split; [rewrite top_regions_value_length; lia|].
  split; [|apply top_regions_value_NoDup].
  apply (StronglySorted_fmap rg_Total_Volume
           (fun a b => (rg_Total_Volume b <= rg_Total_Volume a)%Q));
    [done|apply top_regions_value_sorted].
Qed.

(** X13.  Whatever sorting routine stands behind sort_values, the ranking
    has min(10, number of distinct regions among the records that pass the
    type and date filter) rows, is sorted by descending total, lists no
    region twice, gives each region what the reducer "sum" makes of the
    Total Volume of its records that pass the filter, in the order of the
    table, and is the same on every heap in which [data] holds the same
    records.  Nothing is said of the order of regions with equal totals:
    the contract of [SortKind] promises none. *)
Theorem top_regions_length_and_order (records : list Row) (s : FilterSelection) :
  exists ys ts,
    value (compute records s) = Some (ys, ts)
    /\ length ts
       = min 10 (size (list_to_set (region <$> filter (in_window s) records)
                       : gset string))
    /\ StronglySorted (fun a b => (rg_Total_Volume b <= rg_Total_Volume a)%Q) ts
    /\ NoDup (rg_region <$> ts)
    /\ (forall e, e ∈ ts ->
          rg_Total_Volume e
          = sum (Total_Volume <$> filter (fun r => region r = rg_region e)
                                    (filter (in_window s) records)))
    /\ (forall (h : heap) df, h !! data = Some df -> rows df = records ->
          value (top_regions s h) = Some ts).
Proof.
  eexists _, _. split; [apply compute_value|].
  split; [apply top_regions_value_length|].
  split; [apply top_regions_value_sorted|].
  split; [apply top_regions_value_NoDup|].
  split.
  - intros e He. by apply region_totals_entry, top_regions_value_elem.
  - intros h df Hd <-. by rewrite (top_regions_run _ _ _ Hd).
Qed.

End Further2.

(** ** Letter case *)

Lemma to_lower_idemp c : to_lower (to_lower c) = to_lower c.
Proof. by destruct c as [[] [] [] [] [] [] [] []]. Qed.

Lemma to_lower_upper c : to_lower (to_upper c) = to_lower c.
Proof. by destruct c as [[] [] [] [] [] [] [] []]. Qed.

Lemma to_upper_idemp c : to_upper (to_upper c) = to_upper c.
Proof. by destruct c as [[] [] [] [] [] [] [] []]. Qed.

Lemma cased_to_lower c :
  is_upper (to_lower c) || is_lower (to_lower c) = is_upper c || is_lower c.
Proof. by destruct c as [[] [] [] [] [] [] [] []]. Qed.

Lemma cased_to_upper c :
  is_upper (to_upper c) || is_lower (to_upper c) = is_upper c || is_lower c.
Proof. by destruct c as [[] [] [] [] [] [] [] []]. Qed.

Lemma lower_title_from b s : lower (title_from b s) = lower s.
Proof.
  revert b. induction s as [|c s IH]; intros b; [done|]. simpl.
  rewrite IH. by destruct b; rewrite ?to_lower_idemp, ?to_lower_upper.
Qed.

Lemma length_title_from b s : String.length (title_from b s) = String.length s.
Proof. revert b. induction s as [|c s IH]; intros b; [done|]. simpl. by rewrite IH. Qed.

Lemma title_from_idemp b s : title_from b (title_from b s) = title_from b s.
Proof.
  revert b. induction s as [|c s IH]; intros b; [done|]. simpl.
  destruct b.
  - by rewrite to_lower_idemp, cased_to_lower, IH.
  - by rewrite to_upper_idemp, cased_to_upper, IH.
Qed.

(** X12.  The dropdowns' options (lines 52 and 64-67), for ASCII type
    names: a region option's label is its value; the options carry the
    vocabularies in order; a type option's label is its value up to letter
    case, of the same length, and is in title case. *)
Theorem dropdown_options (regions_ avocado_types_ : list string) :
  Forall ascii_text avocado_types_ ->
  (forall o, o ∈ region_options regions_ -> opt_label o = opt_value o)
  /\ opt_value <$> region_options regions_ = regions_
  /\ opt_value <$> type_options avocado_types_ = avocado_types_
  /\ forall o, o ∈ type_options avocado_types_ ->
       lower (opt_label o) = lower (opt_value o)
       /\ String.length (opt_label o) = String.length (opt_value o)
       /\ title (opt_label o) = opt_label o.
Proof.
  intros _. unfold region_options, type_options. split; [|split; [|split]].
  - intros o Ho. by apply list_elem_of_fmap in Ho as (r & -> & _).
  - rewrite <- list_fmap_compose. apply list_fmap_id.
  - rewrite <- list_fmap_compose. apply list_fmap_id.
  - intros o Ho. apply list_elem_of_fmap in Ho as (t & -> & _). simpl.
    unfold title. split; [apply lower_title_from|].
    split; [apply length_title_from|apply title_from_idemp].
Qed.

(** ** The further properties at concrete inputs *)

(** X2 at three lines, out of order. *)
Lemma load_keeps_every_line_witness :
  exists data_ types_ regions_,
    @load quicksort_kind strptime_Ymd three_lines = Some (data_, types_, regions_)
    /\ length data_ = length three_lines
    /\ types_ = ["conventional"; "organic"]
    /\ regions_ = ["Albany"; "Boston"].
Proof.
  eexists _, _, _. split; [vm_compute; reflexivity|].
  split; [|split; reflexivity].
  eapply (@load_keeps_every_line quicksort_kind strptime_Ymd three_lines).
  vm_compute. reflexivity.
Defined.

(** X12 at the two types of the dataset. *)
Lemma dropdown_options_witness :
  Forall ascii_text ["conventional"; "organic"]
  /\ opt_label <$> type_options ["conventional"; "organic"]
     = ["Conventional"; "Organic"]
  /\ forall o, o ∈ type_options ["conventional"; "organic"] ->
       lower (opt_label o) = lower (opt_value o)
       /\ String.length (opt_label o) = String.length (opt_value o)
       /\ title (opt_label o) = opt_label o.
Proof.
  assert (Forall ascii_text ["conventional"; "organic"]) as Hascii.
  { repeat constructor; unfold ascii_text; simpl;
      repeat (constructor; [vm_compute; lia|]); constructor. }
  split; [exact Hascii|]. split; [reflexivity|].
  apply (dropdown_options [] ["conventional"; "organic"] Hascii).
Defined.
